(** * podcast_tech_radar: a shallow embedding of the ingestion pipeline,
      the chunk windower and the retrieval fusion of [tech_radar]

    The development follows the layout of the Python package:

    - [Py]        the fragment of Python the code relies on (outcomes of a
                  call, slices, ordered dictionaries, stable sorting, floats);
    - [utils]     [tech_radar/utils.py];
    - [schemas]   the records of [tech_radar/schemas.py] and [models.py];
    - [chunking]  [tech_radar/chunking.py];
    - [storage]   [tech_radar/storage.py] over an explicit database state;
    - [nodes]     [tech_radar/nodes.py] and [chunk_nodes.py];
    - [graph]     [tech_radar/graph.py], the two LangGraph state machines.

    Definitions come first; the theorems about them follow in the second
    half of the file. *)

From Stdlib Require Import ZArith List String Ascii Bool Lia Permutation Sorted.
From Stdlib Require Import DecimalString DecimalPos.
From Stdlib Require Import Floats.SpecFloat.
From stdpp Require Import base option list gmap strings.
From Equations Require Import Equations.

Open Scope Z_scope.

(* ================================================================== *)
(** * The Python fragment *)
(* ================================================================== *)

Module Py.

(** Exceptions the modelled code can raise or let through. *)
Inductive exn : Type :=
| IndexError
| KeyError
| ZeroDivisionError
| MultipleResultsFound
| GraphRecursionError
| CollaboratorError (what : string).

(** The outcome of running a Python function: it returns, it raises, or it
    never comes back (a [while] loop whose state stops changing). *)
Inductive py (A : Type) : Type :=
| Ret (a : A)
| Raise (e : exn)
| Diverge.
Arguments Ret {A} a.
Arguments Raise {A} e.
Arguments Diverge {A}.

Definition bind {A B} (m : py A) (k : A -> py B) : py B :=
  match m with
  | Ret a => k a
  | Raise e => Raise e
  | Diverge => Diverge
  end.

#[global] Instance py_ret : MRet py := fun A a => Ret a.
#[global] Instance py_bind : MBind py := fun A B k m => bind m k.

(** [try: ... except Exception: handler]. A diverging body stays diverging. *)
Definition try_except {A} (body : py A) (handler : py A) : py A :=
  match body with
  | Raise _ => handler
  | other => other
  end.

(** [for x in l: acc = f(acc, x)] for a body that may raise. *)
Fixpoint for_each {A S} (f : S -> A -> py S) (l : list A) (acc : S) : py S :=
  match l with
  | [] => Ret acc
  | x :: rest => bind (f acc x) (for_each f rest)
  end.

(** [len(l)], an [int]. *)
Definition len {A} (l : list A) : Z := Z.of_nat (length l).

(** An index of a slice, normalised as Python does for a sequence of
    length [n]: a negative index counts from the end, and the result is
    clamped to [0..n]. *)
Definition clamp_index (n i : Z) : Z :=
  if i <? 0 then Z.max 0 (i + n) else Z.min i n.

(** [l[start:stop]]. *)
Definition slice {A} (l : list A) (start stop : Z) : list A :=
  let a := clamp_index (len l) start in
  let b := clamp_index (len l) stop in
  take (Z.to_nat (b - a)) (drop (Z.to_nat a) l).

(** [l[:stop]] and [l[start:]]. *)
Definition slice_to {A} (l : list A) (stop : Z) : list A := slice l 0 stop.
Definition slice_from {A} (l : list A) (start : Z) : list A := slice l start (len l).

(** [l[0]] and [l[-1]]: [IndexError] on the empty list. *)
Definition first {A} (l : list A) : py A :=
  match l with
  | [] => Raise IndexError
  | x :: _ => Ret x
  end.

Definition final {A} (l : list A) : py A :=
  match last l with
  | None => Raise IndexError
  | Some x => Ret x
  end.

(** [l.index(x)] when [x in l]: the position of the first occurrence. *)
Fixpoint index_of (x : Z) (l : list Z) : option Z :=
  match l with
  | [] => None
  | y :: rest => if x =? y then Some 0 else Z.succ <$> index_of x rest
  end.

(** A stable sort: [sorted(l, key=...)] with the comparison [lt] on the
    items. [insert_sorted x l] moves [x] past the items at the front that are
    smaller than [x] and stops at the first one that is not, so items that
    compare equal keep the order they had. Timsort computes the same list
    whenever [lt] is a strict weak order, as a stable sort's output is then
    unique. *)
Fixpoint insert_sorted {A} (lt : A -> A -> bool) (x : A) (l : list A) : list A :=
  match l with
  | [] => [x]
  | y :: rest => if lt y x then y :: insert_sorted lt x rest else x :: y :: rest
  end.

Definition sorted_by {A} (lt : A -> A -> bool) (l : list A) : list A :=
  foldr (insert_sorted lt) [] l.

(** [list(dict.fromkeys(l))]: duplicates dropped, first occurrences kept in
    place. *)
Fixpoint dedup_first (seen : list Z) (l : list Z) : list Z :=
  match l with
  | [] => []
  | x :: rest =>
      if bool_decide (x ∈ seen) then dedup_first seen rest
      else x :: dedup_first (x :: seen) rest
  end.

Definition fromkeys (l : list Z) : list Z := dedup_first [] l.

(** A [dict] whose iteration order matters: keys in insertion order, a
    store to a key that is present keeps the key where it is. *)
Section OrderedDict.
Context {K V : Type} `{EqDecision K}.

Definition odict : Type := list (K * V).

Fixpoint od_get (d : odict) (k : K) : option V :=
  match d with
  | [] => None
  | (k', v) :: rest => if decide (k = k') then Some v else od_get rest k
  end.

Fixpoint od_set (d : odict) (k : K) (v : V) : odict :=
  match d with
  | [] => [(k, v)]
  | (k', v') :: rest =>
      if decide (k = k') then (k', v) :: rest else (k', v') :: od_set rest k v
  end.

Definition od_keys (d : odict) : list K := fst <$> d.

End OrderedDict.
Arguments odict K V : clear implicits.

(** ** Floats

    A Python [float] is an IEEE 754 binary64 number; [spec_float] with
    precision 53 and maximal exponent 1024 is that format, its operations
    rounding to nearest even as the hardware does. *)
Definition float := spec_float.
Definition prec : Z := 53.
Definition emax : Z := 1024.

Definition float_of_int (z : Z) : float := binary_normalize prec emax z 0 false.
Definition fadd : float -> float -> float := SFadd prec emax.
Definition flt : float -> float -> bool := SFltb.
Definition fle : float -> float -> bool := SFleb.
Definition feq : float -> float -> bool := SFeqb.

(** [x / y] on floats raises [ZeroDivisionError] when [y] is a zero. *)
Definition fdiv (x y : float) : py float :=
  match y with
  | S754_zero _ => Raise ZeroDivisionError
  | _ => Ret (SFdiv prec emax x y)
  end.

(** [max(a, b)] hands back [a] unless [b > a]. *)
Definition fmax (a b : float) : float := if flt a b then b else a.

(** The literal [num / 10^digits], e.g. [decimal 1 1] for [0.1]: Python reads
    a decimal literal as the nearest binary64 number, which is what the
    correctly rounded quotient of the two integers is. *)
Definition decimal (num : Z) (digits : nat) : float :=
  SFdiv prec emax (float_of_int num) (float_of_int (10 ^ Z.of_nat digits)).

End Py.
Export Py.

(* ================================================================== *)
(** * tech_radar/utils.py *)
(* ================================================================== *)

Module utils.

(** A [str] is a [string] whose characters are the code points below 256;
    on these the functions below agree with Python's. *)
Definition str_len (s : string) : Z := Z.of_nat (String.length s).

Definition newline : string := String "010"%char "".

(** [c.isspace()], which is also what [\s] matches in a [str] pattern. *)
Definition is_space (c : ascii) : bool :=
  let n := nat_of_ascii c in
  ((9 <=? n) && (n <=? 13) || (28 <=? n) && (n <=? 32) || (n =? 133) || (n =? 160))%nat.

Fixpoint lstrip (s : string) : string :=
  match s with
  | String c rest => if is_space c then lstrip rest else s
  | EmptyString => EmptyString
  end.

Definition rstrip (s : string) : string := String.rev (lstrip (String.rev s)).

Definition strip (s : string) : string := lstrip (rstrip s).

(** [re.sub(r"\s+", " ", s)]: every maximal run of white space becomes one
    blank. [in_run] says that the previous character was white space. *)
Fixpoint sub_spaces (in_run : bool) (s : string) : string :=
  match s with
  | String c rest =>
      if is_space c
      then if in_run then sub_spaces true rest else String " "%char (sub_spaces true rest)
      else String c (sub_spaces false rest)
  | EmptyString => EmptyString
  end.

(** [c.lower()] on a code point below 256. *)
Definition lower_char (c : ascii) : ascii :=
  let n := nat_of_ascii c in
  if ((65 <=? n) && (n <=? 90) || (192 <=? n) && (n <=? 222) && negb (n =? 215))%nat
  then ascii_of_nat (n + 32)
  else c.

Fixpoint lower (s : string) : string :=
  match s with
  | String c rest => String (lower_char c) (lower rest)
  | EmptyString => EmptyString
  end.

(** [needle in hay] on strings. *)
Fixpoint contains (needle hay : string) : bool :=
  String.prefix needle hay ||
  match hay with
  | String _ rest => contains needle rest
  | EmptyString => false
  end.

(** [s[:n]] for [n >= 0]. *)
Definition str_take (n : Z) (s : string) : string :=
  String.substring 0 (Z.to_nat n) s.

Definition str_join (sep : string) (parts : list string) : string :=
  String.concat sep parts.

(** [str(z)] for an [int]. *)
Definition str_of_int (z : Z) : string := NilZero.string_of_int (Z.to_int z).

(** [f"{z:02d}"]: padded with a zero to two characters, sign included. *)
Definition fmt_02d (z : Z) : string :=
  let s := str_of_int z in
  if (String.length s <? 2)%nat then "0" +:+ s else s.

(** [hash_text]; [sha256_hexdigest] stands for
    [hashlib.sha256(s.encode("utf-8")).hexdigest()]. *)
Definition hash_text (sha256_hexdigest : string -> string) (value : string) : string :=
  sha256_hexdigest (strip value).

Definition normalize_name (value : string) : string :=
  lower (sub_spaces false (strip value)).

Definition seconds_to_hms (seconds : option Z) : string :=
  match seconds with
  | None => "00:00:00"
  | Some seconds =>
      let hours := seconds / 3600 in
      let minutes := (seconds mod 3600) / 60 in
      let secs := seconds mod 60 in
      fmt_02d hours +:+ ":" +:+ fmt_02d minutes +:+ ":" +:+ fmt_02d secs
  end.

Definition compact_spaces (value : string) : string :=
  strip (sub_spaces false value).

Definition take_quote (text : string) (limit : Z) : string :=
  let trimmed := compact_spaces text in
  if str_len trimmed <=? limit then trimmed
  else rstrip (str_take (Z.max 0 (limit - 3)) trimmed) +:+ "...".

Definition estimate_tokens (text : string) : Z :=
  Z.max 1 (str_len text / 4).






(** The first and the last character of a string, to say where white space
    may not be. *)
Definition first_char (s : string) : option ascii :=
  match s with
  | String c _ => Some c
  | EmptyString => None
  end.

Fixpoint last_char (s : string) : option ascii :=
  match s with
  | EmptyString => None
  | String c EmptyString => Some c
  | String _ rest => last_char rest
  end.

(** No white space at either end. *)
Definition stripped (s : string) : Prop :=
  (forall c, first_char s = Some c -> is_space c = false) /\
  (forall c, last_char s = Some c -> is_space c = false).

End utils.

(* ================================================================== *)
(** * tech_radar/schemas.py and models.py *)
(* ================================================================== *)

(** One record per entity serves both as the pydantic schema and as the
    SQLAlchemy row; every record lives in a module of its own, so the
    fields keep the names they have in the source. *)
Module schemas.

Module EpisodeInput.
Record t : Type := mk {
  source_url : option string;
  title : option string;
  guests : list string;
  published_date : option string;
  raw_html : option string }.
End EpisodeInput.

Module Episode.
Record t : Type := mk {
  id : option Z;
  source_url : option string;
  title : option string;
  guests : list string;
  published_date : option string;
  raw_html : option string }.
End Episode.

Module Segment.
Record t : Type := mk {
  id : option Z;
  episode_id : option Z;
  speaker : option string;
  t_start_sec : option Z;
  t_end_sec : option Z;
  youtube_url : option string;
  text : string;
  hash : option string }.
End Segment.

Module Topic.
Record t : Type := mk {
  id : option Z;
  episode_id : option Z;
  name : string;
  summary : string;
  start_seg_id : option Z;
  end_seg_id : option Z }.
End Topic.

(** [schemas.Chunk] and the row [models.Chunk]: a row has a [chunk_hash] and
    leaves [segment_ids] empty, the schema object has no hash. *)
Module Chunk.
Record t : Type := mk {
  id : option Z;
  episode_id : option Z;
  topic_id : option Z;
  start_seg_id : option Z;
  end_seg_id : option Z;
  t_start_sec : option Z;
  t_end_sec : option Z;
  segment_ids : list Z;
  chunk_text : string;
  chunk_hash : option string }.
End Chunk.

Module ChunkSegment.
Record t : Type := mk {
  chunk_id : Z;
  segment_id : Z;
  ord : Z }.
End ChunkSegment.

Module Entity.
Record t : Type := mk {
  id : option Z;
  type : string;
  canonical_name : string;
  aliases : list string;
  first_seen_episode_id : option Z;
  last_seen_episode_id : option Z }.
End Entity.

(** [schemas.Assertion] and the row [models.Assertion] (which adds [hash]). *)
Module Assertion.
Record t : Type := mk {
  id : option Z;
  episode_id : Z;
  entity_id : option Z;
  assertion_type : string;
  statement : string;
  speaker : option string;
  confidence : float;
  verify_priority : Z;
  segment_ids : list Z;
  evidence_quote : string;
  hash : option string }.
End Assertion.

Module TechCard.
Record t : Type := mk {
  entity_id : Z;
  short_definition : string;
  key_points : list string;
  comparisons : list string;
  recent_summary : string }.
End TechCard.

Module Embedding.
Record t : Type := mk {
  id : option Z;
  object_type : string;
  object_id : Z;
  model_name : string;
  dims : Z;
  embedding : list float }.
End Embedding.

Module TranscriptParseResult.
Record t : Type := mk {
  episode : EpisodeInput.t;
  segments : list Segment.t }.
End TranscriptParseResult.

Module CardResult.
Record t : Type := mk {
  cards : list TechCard.t;
  needs_refine : bool }.
End CardResult.

Module RetrievalPlan.
Record t : Type := mk {
  top_k_chunks : Z;
  top_k_cards : Z }.
End RetrievalPlan.

Module QueryOptimizationResult.
Record t : Type := mk {
  intent : string;
  entities : list string;
  queries : list string;
  retrieval_plan : RetrievalPlan.t;
  answer_style : string }.
End QueryOptimizationResult.

Module Citation.
Record t : Type := mk {
  segment_id : option Z;
  speaker : option string;
  timestamp : option Z;
  youtube_url : option string;
  quote : string }.
End Citation.

Module QAAnswer.
Record t : Type := mk {
  answer : string;
  citations : list Citation.t }.
End QAAnswer.

(** Truthiness of an optional string: [None] and [""] are falsy. *)
Definition truthy (s : option string) : bool :=
  match s with
  | Some (String _ _) => true
  | _ => false
  end.

(** [s or default] for an optional string: [None] and [""] are falsy. *)
Definition str_or (s : option string) (default : string) : string :=
  match s with
  | Some (String c rest) => String c rest
  | _ => default
  end.

End schemas.

(* ================================================================== *)
(** * tech_radar/chunking.py *)
(* ================================================================== *)

Module chunking.
Import utils schemas.

Definition _build_chunk_text (topic : option Topic.t) (segments : list Segment.t) : string :=
  let header :=
    match topic with
    | Some topic => ["[Topic: " +:+ Topic.name topic +:+ "]"]
    | None => []
    end in
  let lines :=
    header ++
    segments ≫= (fun seg =>
      let timestamp := seconds_to_hms (Segment.t_start_sec seg) in
      let link :=
        match Segment.youtube_url seg with
        | Some (String c rest) => "[" +:+ String c rest +:+ "]"
        | _ => ""
        end in
      [ str_or (Segment.speaker seg) "Unknown" +:+ " (" +:+ timestamp +:+ ")" +:+ link;
        Segment.text seg ]) in
  strip (str_join newline lines).

Definition _make_chunk (topic : option Topic.t) (segments : list Segment.t)
    (chunk_text : string) : py Chunk.t :=
  start ← first segments;
  end_ ← final segments;
  mret {| Chunk.id := None;
          Chunk.episode_id := None;
          Chunk.topic_id := topic ≫= Topic.id;
          Chunk.start_seg_id := Segment.id start;
          Chunk.end_seg_id := Segment.id end_;
          Chunk.t_start_sec := Segment.t_start_sec start;
          Chunk.t_end_sec := Segment.t_end_sec end_;
          Chunk.segment_ids := omap Segment.id segments;
          Chunk.chunk_text := chunk_text;
          Chunk.chunk_hash := None |}.

Lemma slice_to_minus_one_length {A} (x : A) (rest : list A) :
  (length (slice_to (x :: rest) (-1)) < length (x :: rest))%nat.
Proof.
  unfold slice_to, slice, clamp_index, len. rewrite length_take, length_drop.
  cbn [length]. change (-1 <? 0) with true. change (0 <? 0) with false.
  cbv iota. lia.
Qed.

(** The inner loop of [_build_topic_chunks]:
    [while estimate_tokens(chunk_text) > max_tokens and len(window) > min_segs:
         window = window[:-1]; chunk_text = _build_chunk_text(topic, window)].
    On the empty window one more turn leaves the state as it is, so if the
    condition still holds there the loop never ends. *)
Equations? trim_window (topic : option Topic.t) (max_tokens min_segs : Z)
    (window : list Segment.t) (chunk_text : string)
    : py (list Segment.t * string) by wf (length window) lt :=
  trim_window topic max_tokens min_segs window chunk_text
    with (max_tokens <? estimate_tokens chunk_text) && (min_segs <? len window) => {
    | false := Ret (window, chunk_text)
    | true with window => {
      | [] :=
          let chunk_text := _build_chunk_text topic [] in
          if (max_tokens <? estimate_tokens chunk_text) && (min_segs <? 0)
          then Diverge
          else Ret ([], chunk_text)
      | x :: rest :=
          trim_window topic max_tokens min_segs
            (slice_to (x :: rest) (-1))
            (_build_chunk_text topic (slice_to (x :: rest) (-1))) } }.
Proof. apply slice_to_minus_one_length. Qed.

(** One turn of the outer loop of [_build_topic_chunks], from the window's
    slice to the chunk it appends: [None] is a [break]. *)
Definition window_step (topic : option Topic.t) (segments : list Segment.t)
    (max_tokens min_segs max_segs : Z) (idx : Z)
    : py (option (list Segment.t * Chunk.t)) :=
  let total := len segments in
  let window := slice segments idx (Z.min total (idx + max_segs)) in
  if len window <? min_segs then Ret None
  else
    trimmed ← trim_window topic max_tokens min_segs window (_build_chunk_text topic window);
    let '(window, chunk_text) := trimmed in
    if len window <? min_segs then Ret None
    else
      chunk ← _make_chunk topic window chunk_text;
      mret (Some (window, chunk)).

(** The outer loop, [while idx < total], entered at [idx] with the chunks
    appended so far. *)
Equations? _build_topic_chunks_from (topic : option Topic.t) (segments : list Segment.t)
    (max_tokens min_segs max_segs overlap : Z) (idx : Z) (chunks : list Chunk.t)
    : py (list Chunk.t) by wf (Z.to_nat (len segments - idx)) lt :=
  _build_topic_chunks_from topic segments max_tokens min_segs max_segs overlap idx chunks
    with Z_lt_dec idx (len segments) => {
    | right _ := Ret chunks
    | left _ with window_step topic segments max_tokens min_segs max_segs idx => {
      | Ret None := Ret chunks
      | Ret (Some (window, chunk)) :=
          _build_topic_chunks_from topic segments max_tokens min_segs max_segs overlap
            (idx + Z.max 1 (len window - overlap)) (chunks ++ [chunk])
      | Raise e := Raise e
      | Diverge := Diverge } }.
Proof. lia. Qed.

Definition _build_topic_chunks (topic : option Topic.t) (segments : list Segment.t)
    (max_tokens min_segs max_segs overlap : Z) : py (list Chunk.t) :=
  _build_topic_chunks_from topic segments max_tokens min_segs max_segs overlap 0 [].

(** The same loop, recording for every chunk it appends the window start and
    the window: a ghost of [_build_topic_chunks_from] used to speak about
    consecutive windows. *)
Equations? window_trace_from (topic : option Topic.t) (segments : list Segment.t)
    (max_tokens min_segs max_segs overlap : Z) (idx : Z)
    : py (list (Z * list Segment.t * Chunk.t)) by wf (Z.to_nat (len segments - idx)) lt :=
  window_trace_from topic segments max_tokens min_segs max_segs overlap idx
    with Z_lt_dec idx (len segments) => {
    | right _ := Ret []
    | left _ with window_step topic segments max_tokens min_segs max_segs idx => {
      | Ret None := Ret []
      | Ret (Some (window, chunk)) :=
          rest ← window_trace_from topic segments max_tokens min_segs max_segs overlap
                   (idx + Z.max 1 (len window - overlap));
          mret ((idx, window, chunk) :: rest)
      | Raise e := Raise e
      | Diverge := Diverge } }.
Proof. lia. Qed.

Definition _topic_ranges (topics : list Topic.t) (segments : list Segment.t)
    : list (option Topic.t * list Segment.t) :=
  match topics with
  | [] => [(None, segments)]
  | _ =>
      let seg_ids := omap Segment.id segments in
      (fun topic =>
         let whole := (Some topic, segments) in
         match Topic.start_seg_id topic ≫= (fun i => index_of i seg_ids),
               Topic.end_seg_id topic ≫= (fun i => index_of i seg_ids) with
         | Some start_idx, Some end_idx =>
             if start_idx <=? end_idx
             then (Some topic, slice segments start_idx (end_idx + 1))
             else whole
         | _, _ => whole
         end) <$> topics
  end.

(** The sort key [s.id or 0]. *)
Definition seg_key (s : Segment.t) : Z := default 0 (Segment.id s).

Definition build_chunks_from_topics (topics : list Topic.t) (segments : list Segment.t)
    (max_tokens min_segs max_segs overlap : Z) : py (list Chunk.t) :=
  let ordered_segments :=
    sorted_by (fun a b => seg_key a <? seg_key b)
      (filter (fun seg => is_Some (Segment.id seg)) segments) in
  match ordered_segments with
  | [] => Ret []
  | _ =>
      let topic_ranges := _topic_ranges topics ordered_segments in
      for_each
        (fun chunks '(topic, segs) =>
           let segs_to_use := if min_segs <=? len segs then segs else ordered_segments in
           more ← _build_topic_chunks topic segs_to_use max_tokens min_segs max_segs overlap;
           mret (chunks ++ more))
        topic_ranges []
  end.

(** The slice a turn of the outer loop starts from; a window equal to it
    was not trimmed. *)
Definition initial_window (segments : list Segment.t) (max_segs idx : Z) : list Segment.t :=
  slice segments idx (Z.min (len segments) (idx + max_segs)).

(** A trace whose entries are successive turns of the loop from [idx] on. *)
Fixpoint chained (topic : option Topic.t) (segments : list Segment.t)
    (max_tokens min_segs max_segs overlap : Z) (idx : Z)
    (trace : list (Z * list Segment.t * Chunk.t)) : Prop :=
  match trace with
  | [] => True
  | (i, window, chunk) :: rest =>
      i = idx /\ idx < len segments /\
      window_step topic segments max_tokens min_segs max_segs idx = Ret (Some (window, chunk)) /\
      chained topic segments max_tokens min_segs max_segs overlap
        (idx + Z.max 1 (len window - overlap)) rest
  end.

(** The windows [w1] at [i1] and [w2] at [i2] share exactly [n] segments: the
    last [n] of [w1] are the first [n] of [w2], and [w2] starts where that
    common part starts. *)
Definition overlap_exactly (n : Z) (i1 : Z) (w1 : list Segment.t)
    (i2 : Z) (w2 : list Segment.t) : Prop :=
  exists a s b, w1 = a ++ s /\ w2 = s ++ b /\ len s = n /\ i2 = i1 + len a.

(** What the windower promises of a chunk: it renders a window of at least
    [min_segs] segments, within the token budget unless the window is down
    to [min_segs] segments. *)
Definition budgeted (max_tokens min_segs : Z) (c : Chunk.t) : Prop :=
  exists topic window,
    Chunk.chunk_text c = _build_chunk_text topic window /\
    Chunk.segment_ids c = omap Segment.id window /\
    min_segs <= len window /\
    (estimate_tokens (Chunk.chunk_text c) <= max_tokens \/ len window = min_segs).

(** The defaults of [build_chunks_from_topics]. *)
Definition default_max_tokens : Z := 800.
Definition default_min_segs : Z := 2.
Definition default_max_segs : Z := 6.
Definition default_overlap : Z := 1.

End chunking.

(* ================================================================== *)
(** * tech_radar/storage.py *)
(* ================================================================== *)

(** The database is a record of tables, each a list of rows in the order
    they were inserted. A [select] is a filter over the table, a serial
    primary key is one more than the largest key in use (the code never
    deletes a row), and every function is one transaction: when it raises,
    the caller keeps the database it had. What the server would refuse on
    its own (foreign keys, column sizes) is not modelled. *)
Module storage.
Import utils schemas.

Record DB : Type := mkDB {
  episodes : list Episode.t;
  segments : list Segment.t;
  topics : list Topic.t;
  chunks : list Chunk.t;
  chunk_segments : list ChunkSegment.t;
  entities : list Entity.t;
  assertions : list Assertion.t;
  tech_cards : list TechCard.t;
  embeddings : list Embedding.t }.

Definition empty_db : DB := mkDB [] [] [] [] [] [] [] [] [].

Definition with_episodes (db : DB) (rows : list Episode.t) : DB :=
  mkDB rows (segments db) (topics db) (chunks db) (chunk_segments db)
       (entities db) (assertions db) (tech_cards db) (embeddings db).
Definition with_segments (db : DB) (rows : list Segment.t) : DB :=
  mkDB (episodes db) rows (topics db) (chunks db) (chunk_segments db)
       (entities db) (assertions db) (tech_cards db) (embeddings db).
Definition with_topics (db : DB) (rows : list Topic.t) : DB :=
  mkDB (episodes db) (segments db) rows (chunks db) (chunk_segments db)
       (entities db) (assertions db) (tech_cards db) (embeddings db).
Definition with_chunks (db : DB) (rows : list Chunk.t) (links : list ChunkSegment.t) : DB :=
  mkDB (episodes db) (segments db) (topics db) rows links
       (entities db) (assertions db) (tech_cards db) (embeddings db).
Definition with_entities (db : DB) (rows : list Entity.t) : DB :=
  mkDB (episodes db) (segments db) (topics db) (chunks db) (chunk_segments db)
       rows (assertions db) (tech_cards db) (embeddings db).
Definition with_assertions (db : DB) (rows : list Assertion.t) : DB :=
  mkDB (episodes db) (segments db) (topics db) (chunks db) (chunk_segments db)
       (entities db) rows (tech_cards db) (embeddings db).
Definition with_tech_cards (db : DB) (rows : list TechCard.t) : DB :=
  mkDB (episodes db) (segments db) (topics db) (chunks db) (chunk_segments db)
       (entities db) (assertions db) rows (embeddings db).
Definition with_embeddings (db : DB) (rows : list Embedding.t) : DB :=
  mkDB (episodes db) (segments db) (topics db) (chunks db) (chunk_segments db)
       (entities db) (assertions db) (tech_cards db) rows.

(** [.scalar_one_or_none()]. *)
Definition scalar_one_or_none {A} (rows : list A) : py (option A) :=
  match rows with
  | [] => Ret None
  | [row] => Ret (Some row)
  | _ => Raise MultipleResultsFound
  end.

(** The next value of a serial key. *)
Definition fresh_id (ids : list (option Z)) : Z :=
  1 + foldr Z.max 0 (omap id ids).

(** [row.field = value] written back to the table: the row with the primary
    key [key] is replaced. *)
Definition write_back {A} (key : A -> option Z) (row : A) (rows : list A) : list A :=
  (fun r => if decide (key r = key row) then row else r) <$> rows.

(** ** Episodes *)

Definition upsert_episode (episode : EpisodeInput.t) (db : DB) : py (DB * Episode.t) :=
  existing ←
    (if truthy (EpisodeInput.source_url episode)
     then scalar_one_or_none
            (filter (fun e => Episode.source_url e = EpisodeInput.source_url episode)
                    (episodes db))
     else Ret None);
  match existing with
  | Some existing =>
      let updated :=
        {| Episode.id := Episode.id existing;
           Episode.source_url := Episode.source_url existing;
           Episode.title :=
             if truthy (EpisodeInput.title episode)
             then EpisodeInput.title episode else Episode.title existing;
           Episode.guests :=
             match EpisodeInput.guests episode with
             | [] => Episode.guests existing
             | guests => guests
             end;
           Episode.published_date :=
             if truthy (EpisodeInput.published_date episode)
             then EpisodeInput.published_date episode else Episode.published_date existing;
           Episode.raw_html :=
             if truthy (EpisodeInput.raw_html episode)
             then EpisodeInput.raw_html episode else Episode.raw_html existing |} in
      Ret (with_episodes db (write_back Episode.id updated (episodes db)), updated)
  | None =>
      let created :=
        {| Episode.id := Some (fresh_id (Episode.id <$> episodes db));
           Episode.source_url := EpisodeInput.source_url episode;
           Episode.title := EpisodeInput.title episode;
           Episode.guests := EpisodeInput.guests episode;
           Episode.published_date := EpisodeInput.published_date episode;
           Episode.raw_html := EpisodeInput.raw_html episode |} in
      Ret (with_episodes db (episodes db ++ [created]), created)
  end.

Definition fetch_episode (episode_id : Z) (db : DB) : py (option Episode.t) :=
  scalar_one_or_none (filter (fun e => Episode.id e = Some episode_id) (episodes db)).

(** ** Segments *)

(** One turn of the loop of [upsert_segments]; the state is the table and
    the rows stored so far. *)
Definition upsert_segment (sha256_hexdigest : string -> string) (episode_id : option Z)
    (state : list Segment.t * list Segment.t) (seg : Segment.t)
    : py (list Segment.t * list Segment.t) :=
  let '(rows, stored) := state in
  let hash_value :=
    if truthy (Segment.hash seg) then default "" (Segment.hash seg)
    else hash_text sha256_hexdigest (Segment.text seg) in
  existing ← scalar_one_or_none (filter (fun r => Segment.hash r = Some hash_value) rows);
  match existing with
  | Some existing => Ret (rows, stored ++ [existing])
  | None =>
      let created :=
        {| Segment.id := Some (fresh_id (Segment.id <$> rows));
           Segment.episode_id := episode_id;
           Segment.speaker := Segment.speaker seg;
           Segment.t_start_sec := Segment.t_start_sec seg;
           Segment.t_end_sec := Segment.t_end_sec seg;
           Segment.youtube_url := Segment.youtube_url seg;
           Segment.text := Segment.text seg;
           Segment.hash := Some hash_value |} in
      Ret (rows ++ [created], stored ++ [created])
  end.

Definition upsert_segments (sha256_hexdigest : string -> string) (episode_id : option Z)
    (segs : list Segment.t) (db : DB) : py (DB * list Segment.t) :=
  '(rows, stored) ← for_each (upsert_segment sha256_hexdigest episode_id) segs (segments db, []);
  mret (with_segments db rows, stored).

Definition fetch_episode_segments (episode_id : Z) (db : DB) : list Segment.t :=
  filter (fun r => Segment.episode_id r = Some episode_id) (segments db).

(** [select(Segment).where(Segment.id.in_(segment_ids))]: the rows whose id
    is in the list, as the table has them; the order of [segment_ids] plays
    no part. *)
Definition fetch_segments_by_ids (segment_ids : list Z) (db : DB) : list Segment.t :=
  match segment_ids with
  | [] => []
  | _ => filter (fun r => Segment.id r ∈ Some <$> segment_ids) (segments db)
  end.

(** ** Entities *)

(** [sorted(set(aliases))]: the distinct strings in code point order. *)
Definition sorted_set (aliases : list string) : list string :=
  sorted_by String.ltb (remove_dups aliases).

(** One turn of the loop of [upsert_entities]. [stored] keeps the primary
    keys of the rows appended to the result: the result holds the row
    objects themselves, so a row altered by a later turn shows its last
    state at every place it was appended. *)
Definition upsert_entity (episode_id : option Z)
    (state : list Entity.t * list (option Z)) (ent : Entity.t)
    : py (list Entity.t * list (option Z)) :=
  let '(rows, stored) := state in
  let canonical := normalize_name (Entity.canonical_name ent) in
  existing ← scalar_one_or_none (filter (fun r => Entity.canonical_name r = canonical) rows);
  match existing with
  | Some existing =>
      let updated :=
        {| Entity.id := Entity.id existing;
           Entity.type := Entity.type existing;
           Entity.canonical_name := Entity.canonical_name existing;
           Entity.aliases := sorted_set (Entity.aliases existing ++ Entity.aliases ent);
           Entity.first_seen_episode_id := Entity.first_seen_episode_id existing;
           Entity.last_seen_episode_id := episode_id |} in
      Ret (write_back Entity.id updated rows, stored ++ [Entity.id existing])
  | None =>
      let created :=
        {| Entity.id := Some (fresh_id (Entity.id <$> rows));
           Entity.type := Entity.type ent;
           Entity.canonical_name := canonical;
           Entity.aliases := Entity.aliases ent;
           Entity.first_seen_episode_id := episode_id;
           Entity.last_seen_episode_id := episode_id |} in
      Ret (rows ++ [created], stored ++ [Entity.id created])
  end.

(** The rows with the given keys, one per key, in the order of the keys. *)
Definition rows_of {A} (key : A -> option Z) (rows : list A) (keys : list (option Z)) : list A :=
  omap (fun k => head (filter (fun r => key r = k) rows)) keys.

Definition upsert_entities (episode_id : option Z) (ents : list Entity.t) (db : DB)
    : py (DB * list Entity.t) :=
  '(rows, stored) ← for_each (upsert_entity episode_id) ents (entities db, []);
  mret (with_entities db rows, rows_of Entity.id rows stored).

Definition fetch_entities (db : DB) : list Entity.t := entities db.

(** ** Assertions *)

(** [str(ids)] for a list of [int]s, and [str(x)] for an optional string. *)
Definition str_of_int_list (ids : list Z) : string :=
  "[" +:+ str_join ", " (str_of_int <$> ids) +:+ "]".

Definition str_of_opt (s : option string) : string := default "None" s.

Definition assertion_hash (sha256_hexdigest : string -> string) (a : Assertion.t) : string :=
  hash_text sha256_hexdigest
    (str_of_int (Assertion.episode_id a) +:+ "|" +:+ Assertion.statement a +:+ "|" +:+
     str_of_opt (Assertion.speaker a) +:+ "|" +:+ str_of_int_list (Assertion.segment_ids a)).

Definition upsert_assertion (sha256_hexdigest : string -> string)
    (state : list Assertion.t * list Assertion.t) (assertion : Assertion.t)
    : py (list Assertion.t * list Assertion.t) :=
  let '(rows, stored) := state in
  let hash_value := assertion_hash sha256_hexdigest assertion in
  existing ← scalar_one_or_none (filter (fun r => Assertion.hash r = Some hash_value) rows);
  match existing with
  | Some existing => Ret (rows, stored ++ [existing])
  | None =>
      let created :=
        {| Assertion.id := Some (fresh_id (Assertion.id <$> rows));
           Assertion.episode_id := Assertion.episode_id assertion;
           Assertion.entity_id := Assertion.entity_id assertion;
           Assertion.assertion_type := Assertion.assertion_type assertion;
           Assertion.statement := Assertion.statement assertion;
           Assertion.speaker := Assertion.speaker assertion;
           Assertion.confidence := Assertion.confidence assertion;
           Assertion.verify_priority := Assertion.verify_priority assertion;
           Assertion.segment_ids := Assertion.segment_ids assertion;
           Assertion.evidence_quote := Assertion.evidence_quote assertion;
           Assertion.hash := Some hash_value |} in
      Ret (rows ++ [created], stored ++ [created])
  end.

Definition upsert_assertions (sha256_hexdigest : string -> string)
    (items : list Assertion.t) (db : DB) : py (DB * list Assertion.t) :=
  '(rows, stored) ← for_each (upsert_assertion sha256_hexdigest) items (assertions db, []);
  mret (with_assertions db rows, stored).

Definition fetch_assertions_for_episode (episode_id : Z) (db : DB) : list Assertion.t :=
  filter (fun r => Assertion.episode_id r = episode_id) (assertions db).

Definition fetch_assertions_for_entity (entity_id : Z) (db : DB) : list Assertion.t :=
  filter (fun r => Assertion.entity_id r = Some entity_id) (assertions db).

(** ** Cards *)

Definition upsert_card (state : list TechCard.t * list Z) (card : TechCard.t)
    : py (list TechCard.t * list Z) :=
  let '(rows, stored) := state in
  existing ← scalar_one_or_none
               (filter (fun r => TechCard.entity_id r = TechCard.entity_id card) rows);
  match existing with
  | Some existing =>
      let updated :=
        {| TechCard.entity_id := TechCard.entity_id existing;
           TechCard.short_definition := TechCard.short_definition card;
           TechCard.key_points := TechCard.key_points card;
           TechCard.comparisons := TechCard.comparisons card;
           TechCard.recent_summary := TechCard.recent_summary card |} in
      Ret (write_back (fun r => Some (TechCard.entity_id r)) updated rows,
           stored ++ [TechCard.entity_id existing])
  | None => Ret (rows ++ [card], stored ++ [TechCard.entity_id card])
  end.

Definition upsert_cards (cards : list TechCard.t) (db : DB) : py (DB * list TechCard.t) :=
  '(rows, stored) ← for_each upsert_card cards (tech_cards db, []);
  mret (with_tech_cards db rows,
        rows_of (fun r => Some (TechCard.entity_id r)) rows (Some <$> stored)).

Definition fetch_cards (db : DB) : list TechCard.t := tech_cards db.

(** ** Topics *)

Definition upsert_topic (episode_id : option Z)
    (state : list Topic.t * list Topic.t) (topic : Topic.t)
    : py (list Topic.t * list Topic.t) :=
  let '(rows, stored) := state in
  let created :=
    {| Topic.id := Some (fresh_id (Topic.id <$> rows));
       Topic.episode_id := episode_id;
       Topic.name := Topic.name topic;
       Topic.summary := Topic.summary topic;
       Topic.start_seg_id := Topic.start_seg_id topic;
       Topic.end_seg_id := Topic.end_seg_id topic |} in
  Ret (rows ++ [created], stored ++ [created]).

Definition upsert_topics (episode_id : option Z) (items : list Topic.t) (db : DB)
    : py (DB * list Topic.t) :=
  '(rows, stored) ← for_each (upsert_topic episode_id) items (topics db, []);
  mret (with_topics db rows, stored).

Definition fetch_topics_for_episode (episode_id : Z) (db : DB) : list Topic.t :=
  filter (fun r => Topic.episode_id r = Some episode_id) (topics db).

(** ** Chunks *)

(** [enumerate(l)]. *)
Definition enumerate {A} (l : list A) : list (Z * A) :=
  imap (fun i x => (Z.of_nat i, x)) l.

Definition upsert_chunk (sha256_hexdigest : string -> string) (episode_id : option Z)
    (state : list Chunk.t * list ChunkSegment.t * list Chunk.t) (chunk : Chunk.t)
    : py (list Chunk.t * list ChunkSegment.t * list Chunk.t) :=
  let '(rows, links, stored) := state in
  let hash_value := hash_text sha256_hexdigest (Chunk.chunk_text chunk) in
  existing ← scalar_one_or_none (filter (fun r => Chunk.chunk_hash r = Some hash_value) rows);
  match existing with
  | Some existing => Ret (rows, links, stored ++ [existing])
  | None =>
      let new_id := fresh_id (Chunk.id <$> rows) in
      let created :=
        {| Chunk.id := Some new_id;
           Chunk.episode_id := episode_id;
           Chunk.topic_id := Chunk.topic_id chunk;
           Chunk.start_seg_id := Chunk.start_seg_id chunk;
           Chunk.end_seg_id := Chunk.end_seg_id chunk;
           Chunk.t_start_sec := Chunk.t_start_sec chunk;
           Chunk.t_end_sec := Chunk.t_end_sec chunk;
           Chunk.segment_ids := [];
           Chunk.chunk_text := Chunk.chunk_text chunk;
           Chunk.chunk_hash := Some hash_value |} in
      let new_links :=
        (fun '(ord_idx, seg_id) => ChunkSegment.mk new_id seg_id ord_idx)
          <$> enumerate (Chunk.segment_ids chunk) in
      Ret (rows ++ [created], links ++ new_links, stored ++ [created])
  end.

Definition upsert_chunks (sha256_hexdigest : string -> string) (episode_id : option Z)
    (items : list Chunk.t) (db : DB) : py (DB * list Chunk.t) :=
  '(rows, links, stored) ←
    for_each (upsert_chunk sha256_hexdigest episode_id) items
             (chunks db, chunk_segments db, []);
  mret (with_chunks db rows links, stored).

Definition fetch_chunks_for_episode (episode_id : Z) (db : DB) : list Chunk.t :=
  filter (fun r => Chunk.episode_id r = Some episode_id) (chunks db).

(** [select(segment_id).where(chunk_id == ...).order_by(ord)]. *)
Definition fetch_segment_ids_for_chunk (chunk_id : option Z) (db : DB) : list Z :=
  ChunkSegment.segment_id <$>
    sorted_by (fun a b => ChunkSegment.ord a <? ChunkSegment.ord b)
      (filter (fun r => Some (ChunkSegment.chunk_id r) = chunk_id) (chunk_segments db)).

(** ** Embeddings *)

Definition same_embedding_key (object_type : string) (object_id : Z)
    (model_name : string) (dims : Z) (r : Embedding.t) : Prop :=
  Embedding.object_type r = object_type /\ Embedding.object_id r = object_id /\
  Embedding.model_name r = model_name /\ Embedding.dims r = dims.

#[global] Instance same_embedding_key_dec object_type object_id model_name dims r :
  Decision (same_embedding_key object_type object_id model_name dims r).
Proof. unfold same_embedding_key. apply _. Defined.

(** The ids with an embedding, a [set]: here without repetitions, in table
    order. *)
Definition fetch_embeddings (object_type : string) (object_ids : list Z)
    (model_name : string) (dims : Z) (db : DB) : list Z :=
  match object_ids with
  | [] => []
  | _ =>
      remove_dups
        (Embedding.object_id <$>
           filter (fun r => Embedding.object_type r = object_type /\
                            Embedding.object_id r ∈ object_ids /\
                            Embedding.model_name r = model_name /\
                            Embedding.dims r = dims)
                  (embeddings db))
  end.

Definition upsert_embedding (object_type model_name : string) (dims : Z)
    (rows : list Embedding.t) (item : Z * list float) : py (list Embedding.t) :=
  let '(object_id, vector) := item in
  existing ← scalar_one_or_none
               (filter (same_embedding_key object_type object_id model_name dims) rows);
  match existing with
  | Some existing =>
      let updated :=
        {| Embedding.id := Embedding.id existing;
           Embedding.object_type := Embedding.object_type existing;
           Embedding.object_id := Embedding.object_id existing;
           Embedding.model_name := Embedding.model_name existing;
           Embedding.dims := Embedding.dims existing;
           Embedding.embedding := vector |} in
      Ret (write_back Embedding.id updated rows)
  | None =>
      Ret (rows ++ [ {| Embedding.id := Some (fresh_id (Embedding.id <$> rows));
                        Embedding.object_type := object_type;
                        Embedding.object_id := object_id;
                        Embedding.model_name := model_name;
                        Embedding.dims := dims;
                        Embedding.embedding := vector |} ])
  end.

(** [zip] stops at the shorter of the two lists. *)
Definition upsert_embeddings (object_type : string) (object_ids : list Z)
    (vectors : list (list float)) (model_name : string) (dims : Z) (db : DB) : py DB :=
  rows ← for_each (upsert_embedding object_type model_name dims)
                  (zip object_ids vectors) (embeddings db);
  mret (with_embeddings db rows).

(** ** Well-formed tables and what a transaction leaves alone *)

(** A well-formed [entities] table: the unique column and the primary key. *)
Definition entities_wf (rows : list Entity.t) : Prop :=
  NoDup (Entity.canonical_name <$> rows) /\ NoDup (Entity.id <$> rows).

(** How a row [r] of the table before relates to the row [r'] it has become
    after the entities [ents] were upserted for the episode [eid]: same key
    and name, no alias lost, the aliases of every entity of that name added
    and nothing else, [last_seen] set when there was one, and the row left
    as it was when there was none. *)
Definition merged (eid : option Z) (ents : list Entity.t) (r r' : Entity.t) : Prop :=
  Entity.id r' = Entity.id r /\
  Entity.canonical_name r' = Entity.canonical_name r /\
  (forall a, a ∈ Entity.aliases r -> a ∈ Entity.aliases r') /\
  (forall ent, ent ∈ ents -> normalize_name (Entity.canonical_name ent) = Entity.canonical_name r ->
     Entity.last_seen_episode_id r' = eid /\
     forall a, a ∈ Entity.aliases ent -> a ∈ Entity.aliases r') /\
  (forall a, a ∈ Entity.aliases r' ->
     a ∈ Entity.aliases r \/
     exists ent, ent ∈ ents /\
       normalize_name (Entity.canonical_name ent) = Entity.canonical_name r /\
       a ∈ Entity.aliases ent) /\
  ((forall ent, ent ∈ ents ->
      normalize_name (Entity.canonical_name ent) <> Entity.canonical_name r) -> r' = r).

Definition keeps_cards {A} (f : DB -> py (DB * A)) : Prop :=
  forall d d' a, f d = Ret (d', a) -> tech_cards d' = tech_cards d.

End storage.

(* ================================================================== *)
(** * tech_radar/nodes.py and chunk_nodes.py *)
(* ================================================================== *)

Module nodes.
Import utils schemas chunking storage.

(** ** The collaborators

    What the nodes call outside the package: the Lex transcript parser
    (it fetches and scrapes a page), the language
    model behind [call_json] and [get_chat_model], the embedding client,
    the vector search and SHA-256. A model answer may change from one call
    to the next, so [call_json] takes the number of calls made before it in
    the run besides the [context] of the call; the prompts are rendered from
    that same context. [similarity_search_chunks] is the pgvector query of
    [storage.py], whose distances the database computes. *)
Record Env : Type := mkEnv {
  sha256_hexdigest : string -> string;
  lex_parse : string -> py TranscriptParseResult.t;
  call_json_topics : nat -> list Segment.t -> py (list Topic.t);
  call_json_entities : nat -> list Segment.t -> py (list Entity.t);
  call_json_assertions : nat -> list Segment.t -> Z -> py (list Assertion.t);
  call_json_cards : nat -> list Entity.t -> list Assertion.t -> py CardResult.t;
  call_json_query_optimizer : nat -> string -> option Z -> py QueryOptimizationResult.t;
  embedding_model : string;
  embedding_dims : Z;
  embed_documents : list string -> py (list (list float));
  embed_query : string -> py (list float);
  similarity_search_chunks :
    DB -> list float -> Z -> option Z -> string -> Z -> py (list (Chunk.t * float));
  chat_invoke : string -> py string }.

(** [parsers.generic.GenericTextParser.parse] with no [source_url]. *)
Definition GenericTextParser_parse (sha256 : string -> string) (text : string)
    : TranscriptParseResult.t :=
  {| TranscriptParseResult.episode :=
       {| EpisodeInput.source_url := None; EpisodeInput.title := None;
          EpisodeInput.guests := []; EpisodeInput.published_date := None;
          EpisodeInput.raw_html := None |};
     TranscriptParseResult.segments :=
       [ {| Segment.id := None; Segment.episode_id := None; Segment.speaker := None;
            Segment.t_start_sec := None; Segment.t_end_sec := None;
            Segment.youtube_url := None; Segment.text := text;
            Segment.hash := Some (hash_text sha256 text) |} ] |}.

(** ** The state of a run *)

(** [GraphState], a [TypedDict] with [total=False]: any key may be absent. *)
Record GraphState : Type := mkState {
  source_url : option string;
  file_texts : option (list string);
  episode_id : option Z;
  episode_title : option string;
  segments : option (list Segment.t);
  topics : option (list Topic.t);
  chunks : option (list Chunk.t);
  entities : option (list Entity.t);
  assertions : option (list Assertion.t);
  cards : option (list TechCard.t);
  refine_count : option Z;
  needs_refine : option bool;
  question : option string;
  mode : option string;
  answer : option QAAnswer.t;
  optimized : option QueryOptimizationResult.t;
  debug : option bool }.


(** [{**state, key: value}], one function per key the nodes write. *)
Definition set_parsed (st : GraphState) (eid : option Z) (title : option string)
    (segs : list Segment.t) : GraphState :=
  mkState (source_url st) (file_texts st) eid title (Some segs) (topics st) (chunks st)
    (entities st) (assertions st) (cards st) (refine_count st) (needs_refine st)
    (question st) (mode st) (answer st) (optimized st) (debug st).
Definition set_topics (st : GraphState) (v : list Topic.t) : GraphState :=
  mkState (source_url st) (file_texts st) (episode_id st) (episode_title st) (segments st)
    (Some v) (chunks st) (entities st) (assertions st) (cards st) (refine_count st)
    (needs_refine st) (question st) (mode st) (answer st) (optimized st) (debug st).
Definition set_chunks (st : GraphState) (v : list Chunk.t) : GraphState :=
  mkState (source_url st) (file_texts st) (episode_id st) (episode_title st) (segments st)
    (topics st) (Some v) (entities st) (assertions st) (cards st) (refine_count st)
    (needs_refine st) (question st) (mode st) (answer st) (optimized st) (debug st).
Definition set_entities (st : GraphState) (v : list Entity.t) : GraphState :=
  mkState (source_url st) (file_texts st) (episode_id st) (episode_title st) (segments st)
    (topics st) (chunks st) (Some v) (assertions st) (cards st) (refine_count st)
    (needs_refine st) (question st) (mode st) (answer st) (optimized st) (debug st).
Definition set_assertions (st : GraphState) (v : list Assertion.t) : GraphState :=
  mkState (source_url st) (file_texts st) (episode_id st) (episode_title st) (segments st)
    (topics st) (chunks st) (entities st) (Some v) (cards st) (refine_count st)
    (needs_refine st) (question st) (mode st) (answer st) (optimized st) (debug st).
Definition set_refine (st : GraphState) (flag : bool) (count : Z) : GraphState :=
  mkState (source_url st) (file_texts st) (episode_id st) (episode_title st) (segments st)
    (topics st) (chunks st) (entities st) (assertions st) (cards st) (Some count)
    (Some flag) (question st) (mode st) (answer st) (optimized st) (debug st).
Definition set_cards (st : GraphState) (v : list TechCard.t) (flag : bool) (count : Z)
    : GraphState :=
  mkState (source_url st) (file_texts st) (episode_id st) (episode_title st) (segments st)
    (topics st) (chunks st) (entities st) (assertions st) (Some v) (Some count)
    (Some flag) (question st) (mode st) (answer st) (optimized st) (debug st).
Definition set_answer (st : GraphState) (v : QAAnswer.t) : GraphState :=
  mkState (source_url st) (file_texts st) (episode_id st) (episode_title st) (segments st)
    (topics st) (chunks st) (entities st) (assertions st) (cards st) (refine_count st)
    (needs_refine st) (question st) (mode st) (Some v) (optimized st) (debug st).
Definition set_optimized (st : GraphState) (v : QueryOptimizationResult.t) : GraphState :=
  mkState (source_url st) (file_texts st) (episode_id st) (episode_title st) (segments st)
    (topics st) (chunks st) (entities st) (assertions st) (cards st) (refine_count st)
    (needs_refine st) (question st) (mode st) (answer st) (Some v) (debug st).

(** What a run acts on: the database and the number of [call_json] calls
    made so far. *)
Record World : Type := mkWorld {
  db : DB;
  calls : nat }.

(** A node: it changes the world and returns, raises or diverges. When it
    does not return, the world is the one its last finished transaction
    left. *)
Definition io (A : Type) : Type := World -> World * py A.

Definition io_ret {A} (a : A) : io A := fun w => (w, Ret a).

Definition io_bind {A B} (m : io A) (k : A -> io B) : io B :=
  fun w =>
    match m w with
    | (w', Ret a) => k a w'
    | (w', Raise e) => (w', Raise e)
    | (w', Diverge) => (w', Diverge)
    end.

#[global] Instance io_mret : MRet io := @io_ret.
#[global] Instance io_mbind : MBind io := fun A B k m => io_bind m k.

(** A pure step that may raise. *)
Definition lift {A} (m : py A) : io A := fun w => (w, m).

(** A function of [storage.py]: one transaction on the database. *)
Definition transaction {A} (f : DB -> py (DB * A)) : io A :=
  fun w =>
    match f (db w) with
    | Ret (db', a) => (mkWorld db' (calls w), Ret a)
    | Raise e => (w, Raise e)
    | Diverge => (w, Diverge)
    end.

(** A read of the database. *)
Definition query {A} (f : DB -> A) : io A := fun w => (w, Ret (f (db w))).

(** A call of [call_json]. *)
Definition oracle {A} (f : nat -> py A) : io A :=
  fun w => (mkWorld (db w) (S (calls w)), f (calls w)).

(** [state[key]]: [KeyError] when the key is absent. *)
Definition require {A} (o : option A) : py A :=
  match o with
  | Some a => Ret a
  | None => Raise KeyError
  end.

(** ** The ingestion nodes *)

Definition ingest_url (state : GraphState) : io GraphState := mret state.

Definition ingest_files (state : GraphState) : io GraphState := mret state.

Definition parse_and_segment (env : Env) (state : GraphState) : io GraphState :=
  result ← lift
    (if truthy (source_url state)
     then lex_parse env (default "" (source_url state))
     else Ret (GenericTextParser_parse (sha256_hexdigest env)
                 (str_join (newline +:+ newline) (default [] (file_texts state)))));
  episode ← transaction (upsert_episode (TranscriptParseResult.episode result));
  stored_segments ← transaction
    (upsert_segments (sha256_hexdigest env) (Episode.id episode)
       (TranscriptParseResult.segments result));
  mret (set_parsed state (Episode.id episode) (Episode.title episode) stored_segments).

Definition topic_threader (env : Env) (state : GraphState) : io GraphState :=
  segs ← lift (require (segments state));
  result ← oracle (fun n => call_json_topics env n segs);
  eid ← lift (require (episode_id state));
  stored ← transaction (upsert_topics (Some eid) result);
  mret (set_topics state stored).

(** [chunk_nodes.chunk_builder] and [chunk_nodes.chunk_persist]. *)
Definition chunk_builder (state : GraphState) : io GraphState :=
  built ← lift
    (build_chunks_from_topics (default [] (topics state)) (default [] (segments state))
       default_max_tokens default_min_segs default_max_segs default_overlap);
  mret (set_chunks state built).

Definition chunk_persist (env : Env) (state : GraphState) : io GraphState :=
  eid ← lift (require (episode_id state));
  stored ← transaction
    (upsert_chunks (sha256_hexdigest env) (Some eid) (default [] (chunks state)));
  mret (set_chunks state stored).

Definition entity_extractor (env : Env) (state : GraphState) : io GraphState :=
  segs ← lift (require (segments state));
  result ← oracle (fun n => call_json_entities env n segs);
  eid ← lift (require (episode_id state));
  stored ← transaction (upsert_entities (Some eid) result);
  mret (set_entities state stored).

(** [{seg.id: seg for seg in segments if seg.id is not None}]: of two
    segments with one id the later one stays. *)
Definition seg_lookup_of (segs : list Segment.t) : gmap Z Segment.t :=
  foldl (fun m seg =>
           match Segment.id seg with
           | Some i => <[i := seg]> m
           | None => m
           end) ∅ segs.

Definition evidence_limit : Z := 240.

(** The body of the loop of [assertion_extractor] for one assertion: [None]
    is the [continue] that drops it. *)
Definition post_process (eid : Z) (seg_lookup : gmap Z Segment.t) (assertion : Assertion.t)
    : option Assertion.t :=
  let segment_ids :=
    filter (fun sid => is_Some (seg_lookup !! sid)) (Assertion.segment_ids assertion) in
  match segment_ids with
  | [] => None
  | first_id :: _ =>
      let quote := Assertion.evidence_quote assertion in
      let quote :=
        if bool_decide (quote = "") || (evidence_limit <? str_len quote)
        then match seg_lookup !! first_id with
             | Some first_seg => take_quote (Segment.text first_seg) evidence_limit
             | None => take_quote (Assertion.statement assertion) evidence_limit
             end
        else quote in
      Some {| Assertion.id := Assertion.id assertion;
              Assertion.episode_id := eid;
              Assertion.entity_id := Assertion.entity_id assertion;
              Assertion.assertion_type := Assertion.assertion_type assertion;
              Assertion.statement := Assertion.statement assertion;
              Assertion.speaker := Assertion.speaker assertion;
              Assertion.confidence := Assertion.confidence assertion;
              Assertion.verify_priority := Assertion.verify_priority assertion;
              Assertion.segment_ids := segment_ids;
              Assertion.evidence_quote := quote;
              Assertion.hash := Assertion.hash assertion |}
  end.

Definition assertion_extractor (env : Env) (state : GraphState) : io GraphState :=
  segs ← lift (require (segments state));
  eid ← lift (require (episode_id state));
  result ← oracle (fun n => call_json_assertions env n segs eid);
  let kept := omap (post_process eid (seg_lookup_of segs)) result in
  stored ← transaction (upsert_assertions (sha256_hexdigest env) kept);
  mret (set_assertions state stored).

Definition card_upserter (env : Env) (state : GraphState) : io GraphState :=
  let ents := default [] (entities state) in
  let asserts := default [] (assertions state) in
  result ← oracle (fun n => call_json_cards env n ents asserts);
  if CardResult.needs_refine result
  then mret (set_refine state true (default 0 (refine_count state) + 1))
  else
    stored ← transaction (upsert_cards (CardResult.cards result));
    let flag :=
      existsb (fun card => bool_decide (TechCard.short_definition card = ""))
              (CardResult.cards result) in
    mret (set_cards state stored flag (default 0 (refine_count state))).

(** [embeddings.embed_chunks]. *)
Definition embed_chunks (env : Env) (items : list Chunk.t) : io Z :=
  let items := filter (fun chunk => is_Some (Chunk.id chunk)) items in
  match items with
  | [] => mret 0
  | _ =>
      existing ← query (fetch_embeddings "chunk" (omap Chunk.id items)
                          (embedding_model env) (embedding_dims env));
      let missing :=
        filter (fun chunk => Chunk.id chunk ∉ Some <$> existing) items in
      match missing with
      | [] => mret 0
      | _ =>
          vectors ← lift (embed_documents env
                            ((fun chunk => compact_spaces (Chunk.chunk_text chunk)) <$> missing));
          _ ← transaction (fun d =>
                 d' ← upsert_embeddings "chunk" (omap Chunk.id missing) vectors
                        (embedding_model env) (embedding_dims env) d;
                 mret (d', tt));
          mret (len missing)
      end
  end.

Definition indexer (env : Env) (state : GraphState) : io GraphState :=
  items ←
    match chunks state with
    | Some (c :: rest) => mret (c :: rest)
    | _ =>
        eid ← lift (require (episode_id state));
        query (fetch_chunks_for_episode eid)
    end;
  _ ← embed_chunks env items;
  mret state.

Definition END : string := "__end__".

Definition should_refine (state : GraphState) : string :=
  if default false (needs_refine state) && (default 0 (refine_count state) <? 2)
  then "refine" else END.

(** ** The question-answering nodes *)

Definition f_zero : float := S754_zero false.
Definition f_one : float := float_of_int 1.

(** [score = 1.0 / (1.0 + distance)]. *)
Definition score_of (distance : float) : py float := fdiv f_one (fadd f_one distance).

(** [chunk_scores[chunk.id] = max(chunk_scores.get(chunk.id, 0.0), score)]. *)
Definition fuse_result (chunk_scores : odict (option Z) float) (result : Chunk.t * float)
    : py (odict (option Z) float) :=
  let '(chunk, distance) := result in
  score ← score_of distance;
  mret (od_set chunk_scores (Chunk.id chunk)
          (fmax (default f_zero (od_get chunk_scores (Chunk.id chunk))) score)).

(** [similarity_search_chunks(embed_query(q), ...)] for one query. *)
Definition search_results (env : Env) (d : DB) (top_k : Z) (eid : option Z) (q : string)
    : py (list (Chunk.t * float)) :=
  query_vec ← embed_query env q;
  similarity_search_chunks env d query_vec top_k eid (embedding_model env) (embedding_dims env).

(** The body of [for q in queries]. *)
Definition fuse_query (env : Env) (d : DB) (top_k : Z) (eid : option Z)
    (chunk_scores : odict (option Z) float) (q : string) : py (odict (option Z) float) :=
  chunk_results ← search_results env d top_k eid q;
  for_each fuse_result chunk_results chunk_scores.

(** [sorted(chunk_scores.keys(), key=lambda cid: chunk_scores[cid], reverse=True)]:
    a stable sort, so of two keys with one score the one stored first stays
    first. *)
Definition ranked_chunk_ids (chunk_scores : odict (option Z) float) : list (option Z) :=
  let key cid := default f_zero (od_get chunk_scores cid) in
  sorted_by (fun a b => flt (key b) (key a)) (od_keys chunk_scores).

(** [list(dict.fromkeys(chunk_segment_ids))] over the ranked chunks. *)
Definition ranked_segment_ids (d : DB) (chunk_ids : list (option Z)) : list Z :=
  fromkeys (chunk_ids ≫= (fun cid => fetch_segment_ids_for_chunk cid d)).

(** The [try] block of [qa_chain]. *)
Definition retrieve (env : Env) (d : DB) (state : GraphState) (question : string)
    : py (list Segment.t) :=
  let '(queries, top_k) :=
    match optimized state with
    | Some opt =>
        match QueryOptimizationResult.queries opt with
        | [] => ([question], 8)
        | qs => (qs, RetrievalPlan.top_k_chunks (QueryOptimizationResult.retrieval_plan opt))
        end
    | None => ([question], 8)
    end in
  chunk_scores ← for_each (fuse_query env d top_k (episode_id state)) queries [];
  let chunk_segment_ids := ranked_segment_ids d (ranked_chunk_ids chunk_scores) in
  mret (match chunk_segment_ids with
        | [] => []
        | _ => fetch_segments_by_ids chunk_segment_ids d
        end).

(** The two fallback tiers of [qa_chain], entered when [hits] is empty. *)
Definition fallback_hits (question : string) (segs : list Segment.t) : list Segment.t :=
  let matches :=
    filter (fun seg => contains (lower question) (lower (Segment.text seg)) = true) segs in
  match matches with
  | [] => slice_to segs 3
  | _ => matches
  end.

Definition citation_of (seg : Segment.t) : Citation.t :=
  {| Citation.segment_id := Segment.id seg;
     Citation.speaker := Segment.speaker seg;
     Citation.timestamp := Segment.t_start_sec seg;
     Citation.youtube_url := Segment.youtube_url seg;
     Citation.quote := take_quote (Segment.text seg) 360 |}.

Definition str_of_opt_int (z : option Z) : string :=
  match z with
  | Some z => str_of_int z
  | None => "None"
  end.

Definition context_line (c : Citation.t) : string :=
  str_of_opt (Citation.speaker c) +:+ " @ " +:+ str_of_opt_int (Citation.timestamp c) +:+
  "s: " +:+ Citation.quote c.

Definition dont_know : list string := ["i don't know"; "i don't know."; "i do not know"].

(** [state.get("segments") or fetch_episode_segments(state["episode_id"])]. *)
Definition qa_segments (state : GraphState) (d : DB) : py (list Segment.t) :=
  match segments state with
  | Some (s :: rest) => Ret (s :: rest)
  | _ =>
      eid ← require (episode_id state);
      mret (fetch_episode_segments eid d)
  end.

(** The answer text of [qa_chain] for the citations it settled on: the
    quotes, or what the chat model makes of them. *)
Definition answer_text_of (env : Env) (mode question : string) (citations : list Citation.t)
    : py string :=
  let context_lines :=
    context_line <$> filter (fun c => Citation.quote c <> "") citations in
  let quotes := str_join newline (Citation.quote <$> citations) in
  answer_text ←
    try_except
      (match context_lines with
       | [] => Ret quotes
       | _ =>
           content ← chat_invoke env
                       ("Question: " +:+ question +:+ newline +:+ newline +:+ "Snippets:" +:+
                        newline +:+ str_join newline context_lines);
           mret (match strip content with
                 | "" => quotes
                 | stripped => stripped
                 end)
       end)
      (Ret quotes);
  let answer_text :=
    if bool_decide (lower (strip answer_text) ∈ dont_know)
    then "Based on retrieved snippets:" +:+ newline +:+ quotes
    else answer_text in
  let answer_text :=
    if bool_decide (mode = "verify") &&
       existsb (fun token => contains token (lower question)) ["benchmark"; "cost"; "numbers"]
    then answer_text +:+ newline +:+ newline +:+
         "Note: verification mode is not yet implemented in this phase."
    else answer_text in
  mret answer_text.

(** The segments [qa_chain] cites from: what the [try] block found, or the
    fallback when it raised or found nothing. *)
Definition qa_hits (env : Env) (d : DB) (state : GraphState) (question : string)
    (segs : list Segment.t) : py (list Segment.t) :=
  hits ← try_except (retrieve env d state question) (Ret []);
  mret (match hits with
        | [] => fallback_hits question segs
        | _ => hits
        end).

Definition qa_chain (env : Env) (state : GraphState) : io GraphState :=
  question ← lift (require (question state));
  let mode := default "fast" (mode state) in
  segs ← (fun w => (w, qa_segments state (db w)));
  hits ← (fun w => (w, qa_hits env (db w) state question segs));
  let citations := citation_of <$> slice_to hits 8 in
  answer_text ← lift (answer_text_of env mode question citations);
  mret (set_answer state (QAAnswer.mk answer_text citations)).

Definition optimize_query_node (env : Env) (state : GraphState) : io GraphState :=
  question ← lift (require (question state));
  result ← oracle (fun n => call_json_query_optimizer env n question (episode_id state));
  mret (set_optimized state result).

(** ** Notions the properties of the nodes are stated with *)

(** A float above zero: a number, not a NaN. *)
Definition positive_float (x : float) : Prop := flt f_zero x = true.




(** An oracle that signals [needs_refine] at every card synthesis. *)
Definition always_refines (env : Env) : Prop :=
  forall n ents asserts,
    exists cards, call_json_cards env n ents asserts = Ret (CardResult.mk cards true).

(** A node keeps the cards table, whatever its outcome. *)
Definition card_frame {A} (m : io A) : Prop :=
  forall w, storage.tech_cards (db (m w).1) = storage.tech_cards (db w).

(** A node that returns hands on the two refinement keys of the state. *)
Definition refine_frame (state : GraphState) (m : io GraphState) : Prop :=
  forall w state', (m w).2 = Ret state' ->
    refine_count state' = refine_count state /\ needs_refine state' = needs_refine state.


End nodes.

(* ================================================================== *)
(** * tech_radar/graph.py *)
(* ================================================================== *)

Module graph.
Import utils schemas chunking storage nodes.

(** The nodes of [build_ingest_graph]. *)
Inductive ingest_node : Type :=
| n_ingest_url
| n_ingest_files
| n_parse
| n_topics
| n_chunk_builder
| n_chunk_persist
| n_entities
| n_assertions
| n_cards
| n_index.

#[global] Instance ingest_node_eq_dec : EqDecision ingest_node.
Proof. solve_decision. Defined.

Definition ingest_fn (env : Env) (n : ingest_node) : GraphState -> io GraphState :=
  match n with
  | n_ingest_url => ingest_url
  | n_ingest_files => ingest_files
  | n_parse => parse_and_segment env
  | n_topics => topic_threader env
  | n_chunk_builder => chunk_builder
  | n_chunk_persist => chunk_persist env
  | n_entities => entity_extractor env
  | n_assertions => assertion_extractor env
  | n_cards => card_upserter env
  | n_index => indexer env
  end.

(** The edges: [None] is [END]. The two ingest nodes have no edge, so a run
    that were at one would stop after it; [cards] has the conditional edge
    [{"refine": "assertions", END: "index"}]. *)
Definition ingest_next (n : ingest_node) (state : GraphState) : option ingest_node :=
  match n with
  | n_ingest_url | n_ingest_files => None
  | n_parse => Some n_topics
  | n_topics => Some n_chunk_builder
  | n_chunk_builder => Some n_chunk_persist
  | n_chunk_persist => Some n_entities
  | n_entities => Some n_assertions
  | n_assertions => Some n_cards
  | n_cards => if bool_decide (should_refine state = "refine") then Some n_assertions
               else Some n_index
  | n_index => None
  end.

(** The nodes of [build_qa_graph]. *)
Inductive qa_node : Type :=
| n_optimize_query
| n_qa.

Definition qa_fn (env : Env) (n : qa_node) : GraphState -> io GraphState :=
  match n with
  | n_optimize_query => optimize_query_node env
  | n_qa => qa_chain env
  end.

Definition qa_next (n : qa_node) (state : GraphState) : option qa_node :=
  match n with
  | n_optimize_query => Some n_qa
  | n_qa => None
  end.

(** What [graph.invoke] gives back, with the nodes it ran in order. *)
Record Run (N : Type) : Type := mkRun {
  world : World;
  visited : list N;
  outcome : py GraphState }.
Arguments mkRun {N} world visited outcome.
Arguments world {N} r.
Arguments visited {N} r.
Arguments outcome {N} r.

(** A compiled graph run from the node [n]: run the node, take the state it
    returns, follow the edge. LangGraph stops a run with
    [GraphRecursionError] after [recursion_limit] steps, 25 unless the
    caller asks otherwise; [limit] is what is left of them. *)
Fixpoint run_from {N} (fn : N -> GraphState -> io GraphState)
    (next : N -> GraphState -> option N) (limit : nat) (n : N)
    (w : World) (state : GraphState) : Run N :=
  match limit with
  | O => mkRun w [] (Raise GraphRecursionError)
  | S limit' =>
      match fn n state w with
      | (w', Ret state') =>
          match next n state' with
          | None => mkRun w' [n] (Ret state')
          | Some n' =>
              let r := run_from fn next limit' n' w' state' in
              mkRun (world r) (n :: visited r) (outcome r)
          end
      | (w', failed) => mkRun w' [n] failed
      end
  end.

Definition recursion_limit : nat := 25.

(** [build_ingest_graph().invoke(state)] and [build_qa_graph().invoke(state)]. *)
Definition invoke_ingest (env : Env) (w : World) (state : GraphState) : Run ingest_node :=
  run_from (ingest_fn env) ingest_next recursion_limit n_parse w state.

Definition invoke_qa (env : Env) (w : World) (state : GraphState) : Run qa_node :=
  run_from (qa_fn env) qa_next recursion_limit n_optimize_query w state.

(** How often a run went from [a] straight on to [b]. *)
Fixpoint edge_count {N} `{EqDecision N} (a b : N) (path : list N) : nat :=
  match path with
  | x :: ((y :: _) as rest) =>
      (if decide (x = a /\ y = b) then 1 else 0) + edge_count a b rest
  | _ => 0
  end%nat.

(** The path of an ingestion whose oracle always asks for a refinement. *)
Definition refining_path : list ingest_node :=
  [n_parse; n_topics; n_chunk_builder; n_chunk_persist; n_entities;
   n_assertions; n_cards; n_assertions; n_cards; n_index].

(** A run that went through [n] and then as [r] did. *)
Definition cons_run {N} (n : N) (r : Run N) : Run N :=
  mkRun (world r) (n :: visited r) (outcome r).

(** A run along [path]: it visits a prefix of it, and all of it when it
    returns, then with the refinement counter at 2. *)
Definition runs_along (path : list ingest_node) (r : Run ingest_node) : Prop :=
  visited r `prefix_of` path /\
  forall state', outcome r = Ret state' ->
    visited r = path /\ refine_count state' = Some 2 /\ needs_refine state' = Some true.

End graph.

(* ================================================================== *)
(** * tech_radar/llm.py: the stub oracle, and worlds to run the graphs in *)
(* ================================================================== *)

Module llm.
Import utils schemas chunking storage nodes graph.

(** [_stub(task, context, schema)], task by task. *)
Definition stub_topics (segs : list Segment.t) : list Topic.t :=
  let summary :=
    match segs with
    | seg :: _ => Segment.text seg
    | [] => "Short discussion."
    end in
  [ {| Topic.id := None; Topic.episode_id := None; Topic.name := "Overview";
       Topic.summary := summary; Topic.start_seg_id := None; Topic.end_seg_id := None |} ].

Definition stub_entities : list Entity.t :=
  [ {| Entity.id := None; Entity.type := "concept"; Entity.canonical_name := "AI";
       Entity.aliases := ["artificial intelligence"];
       Entity.first_seen_episode_id := None; Entity.last_seen_episode_id := None |} ].

Definition stub_assertions (segs : list Segment.t) (eid : Z) : list Assertion.t :=
  match segs with
  | [] => []
  | seg :: _ =>
      [ {| Assertion.id := None;
           Assertion.episode_id := eid;
           Assertion.entity_id := None;
           Assertion.assertion_type := "opinion";
           Assertion.statement := take_quote (Segment.text seg) 200;
           Assertion.speaker := Some (str_or (Segment.speaker seg) "Unknown");
           Assertion.confidence := decimal 5 1;
           Assertion.verify_priority := 1;
           Assertion.segment_ids := [default 0 (Segment.id seg)];
           Assertion.evidence_quote := take_quote (Segment.text seg) 200;
           Assertion.hash := None |} ]
  end.

Definition stub_cards (ents : list Entity.t) : CardResult.t :=
  {| CardResult.cards :=
       (fun entity =>
          {| TechCard.entity_id := default 0 (Entity.id entity);
             TechCard.short_definition :=
               Entity.canonical_name entity +:+ " is a key concept discussed.";
             TechCard.key_points := ["Appears in the transcript"];
             TechCard.comparisons := [];
             TechCard.recent_summary := "No recent updates in this episode." |}) <$> ents;
     CardResult.needs_refine := false |}.

Definition offline {A} : py A := Raise (CollaboratorError "offline").

(** A run with [TECH_RADAR_STUB_LLM=true] and no API key: the stub answers
    [call_json] (it knows no [query_optimizer] task), everything that needs
    the network raises. The hash is a stand-in that keeps distinct texts
    distinct. *)
Definition stub_env : Env :=
  {| sha256_hexdigest := fun s => s;
     lex_parse := fun _ => offline;
     call_json_topics := fun _ segs => Ret (stub_topics segs);
     call_json_entities := fun _ _ => Ret stub_entities;
     call_json_assertions := fun _ segs eid => Ret (stub_assertions segs eid);
     call_json_cards := fun _ ents _ => Ret (stub_cards ents);
     call_json_query_optimizer := fun _ _ _ => offline;
     embedding_model := "text-embedding-3-small";
     embedding_dims := 1536;
     embed_documents := fun _ => offline;
     embed_query := fun _ => offline;
     similarity_search_chunks := fun _ _ _ _ _ _ => offline;
     chat_invoke := fun _ => offline |}.

(** The same, with an oracle that asks for a refinement at every card
    synthesis and an embedding client that answers. *)
Definition refining_env : Env :=
  {| sha256_hexdigest := fun s => s;
     lex_parse := fun _ => offline;
     call_json_topics := fun _ segs => Ret (stub_topics segs);
     call_json_entities := fun _ _ => Ret stub_entities;
     call_json_assertions := fun _ segs eid => Ret (stub_assertions segs eid);
     call_json_cards := fun _ ents _ =>
       Ret (CardResult.mk (CardResult.cards (stub_cards ents)) true);
     call_json_query_optimizer := fun _ _ _ => offline;
     embedding_model := "text-embedding-3-small";
     embedding_dims := 1536;
     embed_documents := fun texts => Ret ((fun _ => [f_zero]) <$> texts);
     embed_query := fun _ => offline;
     similarity_search_chunks := fun _ _ _ _ _ _ => offline;
     chat_invoke := fun _ => offline |}.

Definition fresh_world : World := mkWorld empty_db 0.

(** [{"file_texts": [text], "refine_count": 0}], the state [cli.ingest_command]
    and [smoke_test.main] start from. *)
Definition ingest_state (texts : list string) : GraphState :=
  mkState None (Some texts) None None None None None None None None (Some 0) None
    None None None None None.

(** Segments as the database holds them, for the examples. *)
Definition seg (i : Z) (body : string) : Segment.t :=
  {| Segment.id := Some i; Segment.episode_id := Some 1; Segment.speaker := Some "Lex";
     Segment.t_start_sec := Some (10 * i); Segment.t_end_sec := Some (10 * i + 9);
     Segment.youtube_url := None; Segment.text := body; Segment.hash := None |}.

Definition three_segments : list Segment.t := [seg 1 "alpha"; seg 2 "beta"; seg 3 "gamma"].

(** An episode of two segments cut into two chunks, the first chunk holding
    the second segment and the second chunk the first. *)
Definition chunk_row (i : Z) : Chunk.t :=
  {| Chunk.id := Some i; Chunk.episode_id := Some 1; Chunk.topic_id := None;
     Chunk.start_seg_id := None; Chunk.end_seg_id := None;
     Chunk.t_start_sec := None; Chunk.t_end_sec := None;
     Chunk.segment_ids := []; Chunk.chunk_text := ""; Chunk.chunk_hash := None |}.

Definition crossed_db : DB :=
  mkDB [] [seg 1 "alpha"; seg 2 "beta"] [] [chunk_row 10; chunk_row 11]
       [ChunkSegment.mk 10 2 0; ChunkSegment.mk 11 1 0] [] [] [] [].

(** A search that finds chunk 10 at distance 0.1 for the query "A" and at
    distance 0.5 for any other query, and chunk 11 at distance 0.5 for the
    query "A". *)
Definition fusion_env : Env :=
  {| sha256_hexdigest := fun s => s;
     lex_parse := fun _ => offline;
     call_json_topics := fun _ _ => offline;
     call_json_entities := fun _ _ => offline;
     call_json_assertions := fun _ _ _ => offline;
     call_json_cards := fun _ _ _ => offline;
     call_json_query_optimizer := fun _ _ _ => offline;
     embedding_model := "text-embedding-3-small";
     embedding_dims := 1536;
     embed_documents := fun _ => offline;
     embed_query := fun q => Ret [if bool_decide (q = "A") then f_zero else f_one];
     similarity_search_chunks := fun _ vec _ _ _ _ =>
       match vec with
       | [S754_zero _] => Ret [(chunk_row 10, decimal 1 1); (chunk_row 11, decimal 5 1)]
       | _ => Ret [(chunk_row 10, decimal 5 1)]
       end;
     chat_invoke := fun _ => offline |}.

Definition qa_state (eid : Z) (q : string) : GraphState :=
  mkState None None (Some eid) None None None None None None None None None
    (Some q) (Some "fast") None None None.

(** An assertion the oracle returned without an evidence quote. *)
Definition quoteless : Assertion.t :=
  {| Assertion.id := None; Assertion.episode_id := 0; Assertion.entity_id := None;
     Assertion.assertion_type := "fact"; Assertion.statement := "the statement";
     Assertion.speaker := None; Assertion.confidence := decimal 5 1;
     Assertion.verify_priority := 0; Assertion.segment_ids := [7; 2];
     Assertion.evidence_quote := ""; Assertion.hash := None |}.

(** Nine segments that all hold the word "cost". *)
Definition nine_segments : list Segment.t :=
  (fun i => seg i "cost of inference") <$> [1; 2; 3; 4; 5; 6; 7; 8; 9].

(** A database that knows the entity "ai" from episode 1. *)
Definition one_entity_db : DB :=
  with_entities empty_db
    [ {| Entity.id := Some 1; Entity.type := "concept"; Entity.canonical_name := "ai";
         Entity.aliases := ["A.I."];
         Entity.first_seen_episode_id := Some 1; Entity.last_seen_episode_id := Some 1 |} ].




End llm.

(* ================================================================== *)
(** * Properties of the chunk windower *)
(* ================================================================== *)

Import utils schemas chunking.

Lemma len_nonneg {A} (l : list A) : 0 <= len l.
Proof. unfold len. lia. Qed.

Lemma slice_to_minus_one_len {A} (l : list A) : len (slice_to l (-1)) = Z.max 0 (len l - 1).
Proof.
  unfold slice_to, slice, clamp_index, len. rewrite length_take, length_drop.
  change (-1 <? 0) with true. change (0 <? 0) with false. cbv iota. lia.
Qed.

Lemma slice_to_prefix {A} (l : list A) stop : slice_to l stop `prefix_of` l.
Proof.
  unfold slice_to, slice. change (clamp_index (len l) 0) with (Z.min 0 (len l)).
  pose proof (len_nonneg l). replace (Z.to_nat (Z.min 0 (len l))) with 0%nat by lia.
  rewrite drop_0. apply prefix_take.
Qed.

Lemma trim_window_spec topic max_tokens min_segs window chunk_text window' chunk_text' :
  trim_window topic max_tokens min_segs window chunk_text = Ret (window', chunk_text') ->
  min_segs <= len window ->
  chunk_text = _build_chunk_text topic window ->
  chunk_text' = _build_chunk_text topic window' /\
  window' `prefix_of` window /\
  min_segs <= len window' /\
  (estimate_tokens chunk_text' <= max_tokens \/ len window' = min_segs).
Proof.
  funelim (trim_window topic max_tokens min_segs window chunk_text).
  all: intros Hr Hmin Htxt.
  - injection Hr as <- <-. split_and!; [done..|].
    apply andb_false_iff in Heq as [?%Z.ltb_ge | ?%Z.ltb_ge]; lia.
  - simpl in Hr. destruct (_ && _) eqn:E in Hr; [done|]. injection Hr as <- <-.
    split_and!; [done..|].
    apply andb_false_iff in E as [?%Z.ltb_ge | ?%Z.ltb_ge]; [lia|].
    right. unfold len in *. simpl in *. lia.
  - apply andb_true_iff in Heq as [_ Hlen%Z.ltb_lt].
    destruct (H _ _ Hr) as (? & ? & ? & ?); [|done|].
    { rewrite slice_to_minus_one_len. lia. }
    split_and!; [done| |done..].
    etrans; [done|]. apply slice_to_prefix.
Qed.

Lemma trim_window_untrimmed topic max_tokens min_segs window chunk_text :
  estimate_tokens chunk_text <= max_tokens ->
  trim_window topic max_tokens min_segs window chunk_text = Ret (window, chunk_text).
Proof.
  intros Hle. funelim (trim_window topic max_tokens min_segs window chunk_text);
    try done.
  all: apply andb_true_iff in Heq as [?%Z.ltb_lt _]; lia.
Qed.

Lemma trim_window_total topic max_tokens min_segs window chunk_text :
  0 <= min_segs ->
  exists r, trim_window topic max_tokens min_segs window chunk_text = Ret r.
Proof.
  intros Hmin. funelim (trim_window topic max_tokens min_segs window chunk_text).
  - eauto.
  - replace (min_segs <? 0) with false by lia. rewrite andb_false_r. eauto.
  - eauto.
Qed.

Lemma make_chunk_spec topic window chunk_text c :
  _make_chunk topic window chunk_text = Ret c ->
  window <> [] /\
  Chunk.chunk_text c = chunk_text /\
  Chunk.segment_ids c = omap Segment.id window.
Proof.
  unfold _make_chunk. destruct window as [|x rest]; [done|].
  cbn. unfold final. destruct (last (x :: rest)); [|done].
  cbn. intros [= <-]. done.
Qed.

Lemma make_chunk_total topic window chunk_text :
  window <> [] -> exists c, _make_chunk topic window chunk_text = Ret c.
Proof.
  intros Hne. unfold _make_chunk. destruct window as [|x rest]; [done|].
  cbn. unfold final. destruct (last (x :: rest)) eqn:E.
  - cbn. eauto.
  - apply last_None in E. done.
Qed.

Lemma window_step_spec topic segments max_tokens min_segs max_segs idx window chunk :
  window_step topic segments max_tokens min_segs max_segs idx = Ret (Some (window, chunk)) ->
  window `prefix_of` initial_window segments max_segs idx /\
  min_segs <= len window /\
  (estimate_tokens (_build_chunk_text topic window) <= max_tokens \/ len window = min_segs) /\
  _make_chunk topic window (_build_chunk_text topic window) = Ret chunk.
Proof.
  unfold window_step. fold (initial_window segments max_segs idx).
  destruct (len (initial_window segments max_segs idx) <? min_segs) eqn:E0; [done|].
  apply Z.ltb_ge in E0.
  destruct (trim_window _ _ _ _ _) as [[w t]| |] eqn:Et; cbn; [|done..].
  apply trim_window_spec in Et as (-> & Hpre & Hmin & Hbudget); [|done..].
  destruct (len w <? min_segs) eqn:E1; [done|].
  destruct (_make_chunk _ _ _) as [c| |] eqn:Ec; cbn; [|done..].
  intros [= <- <-]. done.
Qed.

Lemma window_step_total topic segments max_tokens min_segs max_segs idx :
  1 <= min_segs ->
  exists r, window_step topic segments max_tokens min_segs max_segs idx = Ret r.
Proof.
  intros Hmin. unfold window_step.
  destruct (_ <? min_segs) eqn:E0; [eauto|]. apply Z.ltb_ge in E0.
  destruct (trim_window_total topic max_tokens min_segs
              (slice segments idx (Z.min (len segments) (idx + max_segs)))
              (_build_chunk_text topic (slice segments idx (Z.min (len segments) (idx + max_segs)))))
    as [[w t] Et]; [lia|].
  rewrite Et. cbn.
  destruct (len w <? min_segs) eqn:E1; [eauto|]. apply Z.ltb_ge in E1.
  destruct (make_chunk_total topic w t) as [c ->]; [|cbn; eauto].
  intros ->. unfold len in E1. simpl in E1. lia.
Qed.

(** The chunks are those of the trace, in order. *)
Lemma build_topic_chunks_from_trace topic segments max_tokens min_segs max_segs overlap idx chunks :
  _build_topic_chunks_from topic segments max_tokens min_segs max_segs overlap idx chunks =
  trace ← window_trace_from topic segments max_tokens min_segs max_segs overlap idx;
  mret (chunks ++ trace.*2).
Proof.
  funelim (_build_topic_chunks_from topic segments max_tokens min_segs max_segs overlap idx chunks);
    simp window_trace_from;
    repeat (first [rewrite Heq0 | rewrite Heq]; cbn); try done.
  - unfold mret, py_ret. by rewrite app_nil_r.
  - rewrite H. destruct (window_trace_from _ _ _ _ _ _ _) as [tr| |]; cbn; [|done..].
    unfold mret, py_ret. by rewrite <- app_assoc.
  - unfold mret, py_ret. by rewrite app_nil_r.
Qed.

Lemma window_trace_chained topic segments max_tokens min_segs max_segs overlap idx trace :
  window_trace_from topic segments max_tokens min_segs max_segs overlap idx = Ret trace ->
  chained topic segments max_tokens min_segs max_segs overlap idx trace.
Proof.
  revert trace.
  funelim (window_trace_from topic segments max_tokens min_segs max_segs overlap idx);
    intros trace Hr; try done; try (injection Hr as <-; done).
  destruct (window_trace_from _ _ _ _ _ _ _) as [tr| |] eqn:Etr in Hr; cbn in Hr; try done.
  injection Hr as <-. cbn. split_and!; [done..|]. by apply H.
Qed.

Lemma window_trace_total topic segments max_tokens min_segs max_segs overlap idx :
  1 <= min_segs ->
  exists trace, window_trace_from topic segments max_tokens min_segs max_segs overlap idx = Ret trace.
Proof.
  intros Hmin.
  funelim (window_trace_from topic segments max_tokens min_segs max_segs overlap idx); eauto.
  all: try (destruct (window_step_total topic segments max_tokens min_segs max_segs idx Hmin);
            congruence).
  destruct H as [tr Htr]; [done|]. rewrite Htr. cbn. eauto.
Qed.

(** ** Sorting and slicing keep the items of the list *)

Lemma elem_of_insert_sorted {A} (lt : A -> A -> bool) x y l :
  x ∈ insert_sorted lt y l <-> x = y \/ x ∈ l.
Proof.
  induction l as [|z l IH]; cbn.
  - rewrite list_elem_of_singleton. set_solver.
  - destruct (lt z y); rewrite !elem_of_cons, ?IH; tauto.
Qed.

Lemma elem_of_sorted_by {A} (lt : A -> A -> bool) x l :
  x ∈ sorted_by lt l <-> x ∈ l.
Proof.
  induction l as [|y l IH]; cbn; [done|].
  rewrite elem_of_insert_sorted, elem_of_cons, IH. done.
Qed.

Lemma slice_sublist {A} (l : list A) a b : slice l a b `sublist_of` l.
Proof.
  unfold slice. etrans; [apply sublist_take | apply sublist_drop].
Qed.

Lemma elem_of_slice {A} (l : list A) a b x : x ∈ slice l a b -> x ∈ l.
Proof. intros H. eapply elem_of_sublist; [exact H | apply slice_sublist]. Qed.

Lemma prefix_is_sublist {A} (l1 l2 : list A) : l1 `prefix_of` l2 -> l1 `sublist_of` l2.
Proof. intros [k ->]. by apply sublist_inserts_r. Qed.

Lemma Forall_of_sublist {A} (P : A -> Prop) (l1 l2 : list A) :
  l1 `sublist_of` l2 -> Forall P l2 -> Forall P l1.
Proof.
  rewrite !Forall_forall. intros Hsub Hall x Hx. apply Hall.
  by eapply elem_of_sublist.
Qed.

Lemma omap_length_all {A B} (f : A -> option B) (l : list A) :
  Forall (fun x => is_Some (f x)) l -> length (omap f l) = length l.
Proof.
  induction 1 as [|x l [y Hy] _ IH]; cbn; [done|]. rewrite Hy. cbn. by rewrite IH.
Qed.

(** ** Loops over a list *)

Lemma for_each_invariant {A S} (f : S -> A -> py S) (Inv : S -> Prop) l acc out :
  for_each f l acc = Ret out ->
  Inv acc ->
  (forall acc x acc', x ∈ l -> Inv acc -> f acc x = Ret acc' -> Inv acc') ->
  Inv out.
Proof.
  revert acc. induction l as [|x l IH]; intros acc Hr Hacc Hstep; cbn in Hr.
  - by injection Hr as <-.
  - destruct (f acc x) as [acc'| |] eqn:E; cbn in Hr; [|done..].
    eapply IH; [exact Hr| |].
    + eapply Hstep; [|exact Hacc|exact E]. left.
    + intros ? ? ? Hin. apply Hstep. by right.
Qed.

Lemma for_each_cons_inv {A S} (f : S -> A -> py S) x l acc out :
  for_each f (x :: l) acc = Ret out ->
  exists acc', f acc x = Ret acc' /\ for_each f l acc' = Ret out.
Proof. cbn. destruct (f acc x) as [acc'| |]; cbn; [eauto|done..]. Qed.

Lemma for_each_total {A S} (f : S -> A -> py S) l acc :
  (forall acc x, x ∈ l -> exists acc', f acc x = Ret acc') ->
  exists out, for_each f l acc = Ret out.
Proof.
  revert acc. induction l as [|x l IH]; intros acc Hstep; cbn; [eauto|].
  destruct (Hstep acc x) as [acc' ->]; [left|]. cbn.
  apply IH. intros ? ? Hin. apply Hstep. by right.
Qed.

(** ** The windowing budget *)

Lemma chained_windows topic segments max_tokens min_segs max_segs overlap idx trace :
  chained topic segments max_tokens min_segs max_segs overlap idx trace ->
  Forall (fun '(i, window, c) =>
            window `prefix_of` initial_window segments max_segs i /\
            min_segs <= len window /\
            (estimate_tokens (_build_chunk_text topic window) <= max_tokens \/
             len window = min_segs) /\
            _make_chunk topic window (_build_chunk_text topic window) = Ret c) trace.
Proof.
  revert idx. induction trace as [|[[i w] c] rest IH]; intros idx Hch; [constructor|].
  destruct Hch as (-> & _ & Hstep & Hrest). constructor; [|by eapply IH].
  by apply window_step_spec in Hstep.
Qed.

Lemma build_topic_chunks_budgeted topic segments max_tokens min_segs max_segs overlap chunks :
  _build_topic_chunks topic segments max_tokens min_segs max_segs overlap = Ret chunks ->
  Forall (fun c => exists window,
            window `sublist_of` segments /\
            Chunk.chunk_text c = _build_chunk_text topic window /\
            Chunk.segment_ids c = omap Segment.id window /\
            min_segs <= len window /\
            (estimate_tokens (Chunk.chunk_text c) <= max_tokens \/ len window = min_segs))
         chunks.
Proof.
  unfold _build_topic_chunks. rewrite build_topic_chunks_from_trace.
  destruct (window_trace_from _ _ _ _ _ _ _) as [tr| |] eqn:Etr; cbn; [|done..].
  intros [= <-]. apply window_trace_chained, chained_windows in Etr.
  apply Forall_fmap. eapply Forall_impl; [exact Etr|].
  intros [[i w] c] (Hpre & Hmin & Hbud & Hmk). cbn.
  apply make_chunk_spec in Hmk as (_ & Htxt & Hids).
  exists w. rewrite Htxt. split_and!; try done.
  etrans; [by apply prefix_is_sublist|]. apply slice_sublist.
Qed.

Lemma build_topic_chunks_total topic segments max_tokens min_segs max_segs overlap :
  1 <= min_segs ->
  exists chunks, _build_topic_chunks topic segments max_tokens min_segs max_segs overlap = Ret chunks.
Proof.
  intros Hmin. unfold _build_topic_chunks. rewrite build_topic_chunks_from_trace.
  destruct (window_trace_total topic segments max_tokens min_segs max_segs overlap 0 Hmin)
    as [tr ->]. cbn. eauto.
Qed.

Lemma topic_ranges_sublist topics segments topic segs :
  (topic, segs) ∈ _topic_ranges topics segments -> segs `sublist_of` segments.
Proof.
  unfold _topic_ranges. destruct topics as [|t0 ts].
  - intros [= -> ->]%list_elem_of_singleton. done.
  - intros (t & Heq & _)%list_elem_of_fmap.
    repeat case_match; injection Heq as _ ->; done || apply slice_sublist.
Qed.

(** C3: [build_chunks_from_topics] returns whenever [min_segs] is at least 1,
    and every chunk it returns was rendered from a window of at least
    [min_segs] segments whose estimated token count, max(1, characters / 4),
    is at most [max_tokens] unless the window holds exactly [min_segs]
    segments. *)
Theorem windowing_budget topics segments max_tokens min_segs max_segs overlap :
  (1 <= min_segs ->
   exists chunks,
     build_chunks_from_topics topics segments max_tokens min_segs max_segs overlap = Ret chunks) /\
  (forall chunks,
     build_chunks_from_topics topics segments max_tokens min_segs max_segs overlap = Ret chunks ->
     forall c, c ∈ chunks ->
       budgeted max_tokens min_segs c /\
       min_segs <= len (Chunk.segment_ids c) /\
       (Z.max 1 (str_len (Chunk.chunk_text c) / 4) <= max_tokens \/
        len (Chunk.segment_ids c) = min_segs)).
Proof.
  unfold build_chunks_from_topics.
  set (ordered := sorted_by _ _).
  assert (Hids : Forall (fun seg => is_Some (Segment.id seg)) ordered).
  { apply Forall_forall. intros seg Hin. apply elem_of_sorted_by in Hin.
    apply list_elem_of_filter in Hin as [Hid _]. done. }
  split.
  - intros Hmin. destruct ordered as [|s0 ordered']; [eauto|].
    apply for_each_total. intros acc [topic segs] _.
    destruct (build_topic_chunks_total topic
                (if min_segs <=? len segs then segs else s0 :: ordered')
                max_tokens min_segs max_segs overlap Hmin) as [more ->].
    cbn. eauto.
  - intros chunks Hr.
    cut (Forall (fun c => exists topic window,
                   Forall (fun seg => is_Some (Segment.id seg)) window /\
                   Chunk.chunk_text c = _build_chunk_text topic window /\
                   Chunk.segment_ids c = omap Segment.id window /\
                   min_segs <= len window /\
                   (estimate_tokens (Chunk.chunk_text c) <= max_tokens \/ len window = min_segs))
                chunks).
    { intros Hall c Hc. rewrite Forall_forall in Hall.
      destruct (Hall c Hc) as (topic & w & Hw & Htxt & Hsids & Hmin & Hbud).
      assert (Hlen : len (Chunk.segment_ids c) = len w).
      { unfold len. rewrite Hsids, omap_length_all; done. }
      split; [by exists topic, w|]. rewrite Hlen. done. }
    destruct ordered as [|s0 ordered'] eqn:Eo; [injection Hr as <-; constructor|].
    rewrite <- Eo in *. clear Eo.
    eapply (for_each_invariant _ _ _ _ _ Hr); [constructor|].
    intros acc [topic segs] acc' Hin Hacc Hstep.
    destruct (_build_topic_chunks _ _ _ _ _ _) as [more| |] eqn:Em; cbn in Hstep; [|done..].
    injection Hstep as <-. apply Forall_app. split; [done|].
    apply build_topic_chunks_budgeted in Em.
    eapply Forall_impl; [exact Em|]. cbn.
    intros c (w & Hsub & ?). exists topic, w. split; [|done].
    assert (Huse : (if min_segs <=? len segs then segs else ordered) `sublist_of` ordered).
    { destruct (_ <=? _); [|done]. by eapply topic_ranges_sublist. }
    eapply Forall_of_sublist; [|exact Hids]. by etrans.
Qed.

Import storage nodes graph llm.

(** ** Consecutive windows *)

Lemma clamp_index_range n i : 0 <= n -> 0 <= clamp_index n i <= n.
Proof. unfold clamp_index. destruct (Z.ltb_spec i 0); lia. Qed.

Lemma clamp_index_id n i : 0 <= i <= n -> clamp_index n i = i.
Proof. unfold clamp_index. destruct (Z.ltb_spec i 0); lia. Qed.

(** A later window that is not empty ends no earlier than the one before. *)
Lemma window_stop_monotone n max_segs i1 i2 :
  0 <= i1 < i2 -> i2 < n ->
  i1 < clamp_index n (Z.min n (i1 + max_segs)) ->
  i2 < clamp_index n (Z.min n (i2 + max_segs)) ->
  clamp_index n (Z.min n (i1 + max_segs)) <= clamp_index n (Z.min n (i2 + max_segs)).
Proof.
  unfold clamp_index.
  destruct (Z.ltb_spec (Z.min n (i1 + max_segs)) 0),
           (Z.ltb_spec (Z.min n (i2 + max_segs)) 0); lia.
Qed.

(** [l[a:b]] for indices already within [0 <= a <= b <= len l]. *)
Lemma slice_length {A} (l : list A) a b :
  len (slice l a b) =
  Z.max 0 (clamp_index (len l) b - clamp_index (len l) a).
Proof.
  unfold slice. pose proof (clamp_index_range (len l) a ltac:(unfold len; lia)).
  pose proof (clamp_index_range (len l) b ltac:(unfold len; lia)).
  unfold len in *. rewrite length_take, length_drop. lia.
Qed.

Lemma take_same_effect {A} (l : list A) (n m : nat) :
  (n `min` length l = m `min` length l)%nat -> take n l = take m l.
Proof.
  revert n m. induction l as [|x l IH]; intros [|n] [|m] H; cbn in *; try done; try lia.
  f_equal. apply IH. lia.
Qed.

Lemma overlapping_slices {A} (l : list A) (q1 p1 q2 p2 ov : nat) :
  (q1 + p1 <= length l)%nat -> (ov <= p1)%nat -> (q2 = q1 + p1 - ov)%nat ->
  (q1 + p1 <= q2 + p2)%nat ->
  drop (p1 - ov) (take p1 (drop q1 l)) = take ov (take p2 (drop q2 l)).
Proof.
  intros H1 H2 H3 H4.
  rewrite skipn_firstn_comm, drop_drop, take_take.
  replace (q1 + (p1 - ov))%nat with q2 by lia.
  apply take_same_effect. rewrite length_drop. lia.
Qed.

Lemma consecutive_windows_overlap (segments : list Segment.t) max_segs overlap i1 i2 w1 w2 :
  0 <= i1 < len segments ->
  i2 < len segments ->
  w1 = initial_window segments max_segs i1 ->
  w2 = initial_window segments max_segs i2 ->
  w2 <> [] ->
  0 <= overlap < len w1 ->
  i2 = i1 + Z.max 1 (len w1 - overlap) ->
  overlap_exactly overlap i1 w1 i2 w2.
Proof.
  intros Hi1 Hi2 Hw1 Hw2 Hne Hov Hadv.
  assert (Hlen1 : len w1 = Z.max 0 (clamp_index (len segments) (Z.min (len segments) (i1 + max_segs)) - i1)).
  { subst w1. unfold initial_window. rewrite slice_length, (clamp_index_id _ i1); lia. }
  assert (Hi2' : 0 <= i2 <= len segments) by lia.
  assert (Hlen2 : len w2 = Z.max 0 (clamp_index (len segments) (Z.min (len segments) (i2 + max_segs)) - i2)).
  { subst w2. unfold initial_window. rewrite slice_length, (clamp_index_id _ i2); lia. }
  assert (Hpos2 : 1 <= len w2) by (destruct w2; [done|unfold len; cbn; lia]).
  pose proof (clamp_index_range (len segments) (Z.min (len segments) (i1 + max_segs))
                ltac:(lia)) as Hb1.
  pose proof (clamp_index_range (len segments) (Z.min (len segments) (i2 + max_segs))
                ltac:(lia)) as Hb2.
  pose proof (window_stop_monotone (len segments) max_segs i1 i2) as Hmono.
  set (b1 := clamp_index (len segments) (Z.min (len segments) (i1 + max_segs))) in *.
  set (b2 := clamp_index (len segments) (Z.min (len segments) (i2 + max_segs))) in *.
  assert (Hb12 : b1 <= b2) by (apply Hmono; lia).
  assert (Hl1 : len w1 = b1 - i1) by lia.
  assert (Hs : drop (Z.to_nat (len w1 - overlap)) w1 = take (Z.to_nat overlap) w2).
  { rewrite Hl1. subst w1 w2. unfold initial_window, slice.
    fold b1 b2. rewrite (clamp_index_id _ i1), (clamp_index_id _ i2) by lia.
    replace (Z.to_nat (b1 - i1 - overlap)) with (Z.to_nat (b1 - i1) - Z.to_nat overlap)%nat by lia.
    apply overlapping_slices; unfold len in *; lia. }
  exists (take (Z.to_nat (len w1 - overlap)) w1),
         (drop (Z.to_nat (len w1 - overlap)) w1),
         (drop (Z.to_nat overlap) w2).
  split_and!.
  - by rewrite take_drop.
  - by rewrite Hs, take_drop.
  - unfold len in *. rewrite length_drop. lia.
  - unfold len in *. rewrite length_take. lia.
Qed.

Lemma chained_suffix topic segments max_tokens min_segs max_segs overlap idx pre suf :
  chained topic segments max_tokens min_segs max_segs overlap idx (pre ++ suf) ->
  0 <= idx ->
  exists idx', 0 <= idx' /\
    chained topic segments max_tokens min_segs max_segs overlap idx' suf.
Proof.
  revert idx. induction pre as [|[[i w] c] pre IH]; intros idx Hch Hidx; [eauto|].
  destruct Hch as (_ & _ & _ & Hrest). apply IH in Hrest; [done|lia].
Qed.

(** A window is what the list holds from its start on. *)
Lemma window_is_take (segments : list Segment.t) max_segs i w :
  0 <= i ->
  w `prefix_of` initial_window segments max_segs i ->
  w = take (length w) (drop (Z.to_nat i) segments) /\
  (w <> [] -> (Z.to_nat i + length w <= length segments)%nat).
Proof.
  intros Hi [k Hk]. unfold initial_window, slice in Hk.
  pose proof (len_nonneg segments) as Hn.
  set (n := Z.to_nat (clamp_index (len segments) (Z.min (len segments) (i + max_segs)) -
                      clamp_index (len segments) i)) in Hk.
  assert (Hd : drop (Z.to_nat (clamp_index (len segments) i)) segments =
               drop (Z.to_nat i) segments).
  { unfold clamp_index, len. replace (i <? 0) with false by lia.
    destruct (Z.le_gt_cases i (Z.of_nat (length segments))).
    - by rewrite Z.min_l.
    - rewrite Z.min_r by lia. rewrite !drop_ge; [done|lia|lia]. }
  rewrite Hd in Hk.
  assert (Hlen : (length w <= length (take n (drop (Z.to_nat i) segments)))%nat).
  { rewrite Hk, length_app. lia. }
  rewrite length_take, length_drop in Hlen. split.
  - apply (f_equal (take (length w))) in Hk.
    rewrite take_app_length, take_take in Hk.
    rewrite <- Hk at 1. apply take_same_effect. rewrite length_drop. lia.
  - intros Hne. destruct w; [done|]. cbn in *. lia.
Qed.

(** Two consecutive windows, trimmed or not, share the segments from the
    start of the second to the end of the first when the second reaches that
    far. *)
Lemma consecutive_windows_share (segments : list Segment.t) max_segs overlap i1 i2 w1 w2 :
  0 <= i1 ->
  w1 `prefix_of` initial_window segments max_segs i1 ->
  w2 `prefix_of` initial_window segments max_segs i2 ->
  w1 <> [] ->
  0 <= overlap ->
  i2 = i1 + Z.max 1 (len w1 - overlap) ->
  Z.min overlap (len w1 - 1) <= len w2 ->
  overlap_exactly (Z.min overlap (len w1 - 1)) i1 w1 i2 w2.
Proof.
  intros Hi1 Hp1 Hp2 Hne Hov Hadv Hreach.
  assert (Hpos1 : 1 <= len w1) by (destruct w1; [done|unfold len; cbn; lia]).
  apply window_is_take in Hp1 as [Hw1 Hb1]; [|done]. specialize (Hb1 Hne).
  apply window_is_take in Hp2 as [Hw2 _]; [|lia].
  set (n := Z.min overlap (len w1 - 1)) in *.
  assert (Hs : drop (length w1 - Z.to_nat n) w1 = take (Z.to_nat n) w2).
  { transitivity (drop (length w1 - Z.to_nat n)
                    (take (length w1) (drop (Z.to_nat i1) segments))); [by rewrite <- Hw1|].
    transitivity (take (Z.to_nat n) (take (length w2) (drop (Z.to_nat i2) segments)));
      [|by rewrite <- Hw2].
    apply overlapping_slices; unfold len in *; lia. }
  exists (take (length w1 - Z.to_nat n) w1), (drop (length w1 - Z.to_nat n) w1),
         (drop (Z.to_nat n) w2).
  split_and!.
  - by rewrite take_drop.
  - by rewrite Hs, take_drop.
  - unfold len in *. rewrite length_drop. lia.
  - unfold len in *. rewrite length_take. lia.
Qed.

(** A second window that was not trimmed reaches the end of the first. *)
Lemma untrimmed_window_reaches (segments : list Segment.t) max_segs overlap i1 i2 w1 w2 :
  0 <= i1 ->
  w1 `prefix_of` initial_window segments max_segs i1 ->
  w2 = initial_window segments max_segs i2 ->
  w1 <> [] -> w2 <> [] ->
  0 <= overlap ->
  i2 = i1 + Z.max 1 (len w1 - overlap) ->
  i2 < len segments ->
  Z.min overlap (len w1 - 1) <= len w2.
Proof.
  intros Hi1 Hp1 Hw2 Hne1 Hne2 Hov Hadv Hi2.
  assert (Hpos1 : 1 <= len w1) by (destruct w1; [done|unfold len; cbn; lia]).
  assert (Hpos2 : 1 <= len w2) by (destruct w2; [done|unfold len; cbn; lia]).
  assert (Hle1 : len w1 <= len (initial_window segments max_segs i1)).
  { destruct Hp1 as [k ->]. unfold len. rewrite length_app. lia. }
  assert (Hi1' : i1 < len segments) by lia.
  unfold initial_window in Hle1. rewrite slice_length, (clamp_index_id _ i1) in Hle1 by lia.
  assert (Hlen2 : len w2 = Z.max 0 (clamp_index (len segments) (Z.min (len segments) (i2 + max_segs)) - i2)).
  { subst w2. unfold initial_window. rewrite slice_length, (clamp_index_id _ i2); lia. }
  pose proof (window_stop_monotone (len segments) max_segs i1 i2) as Hmono.
  set (b1 := clamp_index (len segments) (Z.min (len segments) (i1 + max_segs))) in *.
  set (b2 := clamp_index (len segments) (Z.min (len segments) (i2 + max_segs))) in *.
  assert (Hb12 : b1 <= b2) by (apply Hmono; lia).
  lia.
Qed.

(** C6 (amended): along the turns of the loop of [_build_topic_chunks], every
    emitted window has at least [min_segs] segments and the start of the
    next window is the start of this one plus max(1, len(window) - overlap).
    Two consecutive windows that were not trimmed share exactly [overlap]
    segments when 0 <= overlap < len(window), and exactly len(window) - 1
    segments when overlap >= len(window), the advance then being 1. In
    general, for overlap >= 0, they share exactly
    min(overlap, len(window) - 1) segments whenever the second window was
    not trimmed or is at least that long. *)
Theorem windowing_overlap topic segments max_tokens min_segs max_segs overlap trace :
  window_trace_from topic segments max_tokens min_segs max_segs overlap 0 = Ret trace ->
  _build_topic_chunks topic segments max_tokens min_segs max_segs overlap = Ret trace.*2 /\
  (forall i w c, (i, w, c) ∈ trace ->
     min_segs <= len w /\ _make_chunk topic w (_build_chunk_text topic w) = Ret c) /\
  (forall pre i1 w1 c1 i2 w2 c2 post,
     trace = pre ++ (i1, w1, c1) :: (i2, w2, c2) :: post ->
     i2 = i1 + Z.max 1 (len w1 - overlap) /\
     (w1 = initial_window segments max_segs i1 ->
      w2 = initial_window segments max_segs i2 ->
      0 <= overlap < len w1 ->
      overlap_exactly overlap i1 w1 i2 w2) /\
     (w1 = initial_window segments max_segs i1 ->
      w2 = initial_window segments max_segs i2 ->
      len w1 <= overlap ->
      overlap_exactly (len w1 - 1) i1 w1 i2 w2) /\
     (0 <= overlap ->
      w2 = initial_window segments max_segs i2 \/ Z.min overlap (len w1 - 1) <= len w2 ->
      overlap_exactly (Z.min overlap (len w1 - 1)) i1 w1 i2 w2)).
Proof.
  intros Htr. split_and!.
  - unfold _build_topic_chunks. by rewrite build_topic_chunks_from_trace, Htr.
  - intros i w c Hin. apply window_trace_chained, chained_windows in Htr.
    rewrite Forall_forall in Htr. apply Htr in Hin. cbn in Hin. tauto.
  - intros pre i1 w1 c1 i2 w2 c2 post ->.
    apply window_trace_chained in Htr.
    apply chained_suffix in Htr as (idx' & Hidx' & Hch); [|lia].
    destruct Hch as (-> & Hlt1 & Hstep1 & -> & Hlt2 & Hstep2 & _).
    apply window_step_spec in Hstep1 as (Hp1 & _ & _ & Hmk1).
    apply window_step_spec in Hstep2 as (Hp2 & _ & _ & Hmk2).
    apply make_chunk_spec in Hmk1 as (Hne1 & _).
    apply make_chunk_spec in Hmk2 as (Hne2 & _).
    assert (Hgen : 0 <= overlap ->
              w2 = initial_window segments max_segs (idx' + Z.max 1 (len w1 - overlap)) \/
              Z.min overlap (len w1 - 1) <= len w2 ->
              overlap_exactly (Z.min overlap (len w1 - 1)) idx' w1
                (idx' + Z.max 1 (len w1 - overlap)) w2).
    { intros Hov Hreach.
      apply (consecutive_windows_share segments max_segs); try done.
      destruct Hreach as [Hw2|Hreach]; [|done].
      by apply (untrimmed_window_reaches segments max_segs overlap idx'
                  (idx' + Z.max 1 (len w1 - overlap)) w1 w2). }
    split_and!; [done| | |done].
    + intros _ Hw2 Hov. replace overlap with (Z.min overlap (len w1 - 1)) at 1 by lia.
      apply Hgen; [lia|by left].
    + intros _ Hw2 Hov.
      assert (1 <= len w1) by (destruct w1; [done|unfold len; cbn; lia]).
      replace (len w1 - 1) with (Z.min overlap (len w1 - 1)) at 1 by lia.
      apply Hgen; [lia|by left].
Qed.

(** Three segments in windows of two. With an overlap of 1 the windows are
    segments 1, 2 and segments 2, 3 and share one segment; with an overlap of
    2, the length of a window, the advance is 1 all the same and they share
    one segment, not two. *)
Lemma windowing_overlap_witness :
  exists c1 c2 d1 d2,
    window_trace_from None three_segments 800 2 2 1 0 =
      Ret [(0, [seg 1 "alpha"; seg 2 "beta"], c1); (1, [seg 2 "beta"; seg 3 "gamma"], c2)] /\
    _build_topic_chunks None three_segments 800 2 2 1 = Ret [c1; c2] /\
    Chunk.segment_ids c1 = [1; 2] /\ Chunk.segment_ids c2 = [2; 3] /\
    overlap_exactly 1 0 [seg 1 "alpha"; seg 2 "beta"] 1 [seg 2 "beta"; seg 3 "gamma"] /\
    window_trace_from None three_segments 800 2 2 2 0 =
      Ret [(0, [seg 1 "alpha"; seg 2 "beta"], d1); (1, [seg 2 "beta"; seg 3 "gamma"], d2)] /\
    overlap_exactly (2 - 1) 0 [seg 1 "alpha"; seg 2 "beta"] 1 [seg 2 "beta"; seg 3 "gamma"].
Proof.
  do 4 eexists.
  assert (H1 : window_trace_from None three_segments 800 2 2 1 0 =
               Ret [(0, [seg 1 "alpha"; seg 2 "beta"], _);
                    (1, [seg 2 "beta"; seg 3 "gamma"], _)]) by (vm_compute; reflexivity).
  assert (H2 : window_trace_from None three_segments 800 2 2 2 0 =
               Ret [(0, [seg 1 "alpha"; seg 2 "beta"], _);
                    (1, [seg 2 "beta"; seg 3 "gamma"], _)]) by (vm_compute; reflexivity).
  destruct (windowing_overlap None three_segments 800 2 2 1 _ H1) as (Hb & _ & Hc1).
  destruct (windowing_overlap None three_segments 800 2 2 2 _ H2) as (_ & _ & Hc2).
  destruct (Hc1 [] _ _ _ _ _ _ [] eq_refl) as (_ & Hex & _).
  destruct (Hc2 [] _ _ _ _ _ _ [] eq_refl) as (_ & _ & Hcl & _).
  split_and!.
  - exact H1.
  - exact Hb.
  - vm_compute. reflexivity.
  - vm_compute. reflexivity.
  - apply Hex; [vm_compute; reflexivity..|]. vm_compute. split; [discriminate|reflexivity].
  - exact H2.
  - apply Hcl; [vm_compute; reflexivity..|]. vm_compute. discriminate.
Defined.

Lemma overlap_clamped_counterexample :
  exists c1 c2,
    _build_topic_chunks None three_segments 800 2 2 2 = Ret [c1; c2] /\
    Chunk.segment_ids c1 = [1; 2] /\ Chunk.segment_ids c2 = [2; 3] /\
    window_trace_from None three_segments 800 2 2 2 0 =
      Ret [(0, [seg 1 "alpha"; seg 2 "beta"], c1); (1, [seg 2 "beta"; seg 3 "gamma"], c2)] /\
    [seg 1 "alpha"; seg 2 "beta"] = initial_window three_segments 2 0 /\
    [seg 2 "beta"; seg 3 "gamma"] = initial_window three_segments 2 1 /\
    ~ overlap_exactly 2 0 [seg 1 "alpha"; seg 2 "beta"] 1 [seg 2 "beta"; seg 3 "gamma"].
Proof.
  do 2 eexists. split_and!; try (vm_compute; reflexivity).
  intros (a & s & b & Hw1 & _ & Hs & Ha).
  apply (f_equal length) in Hw1. rewrite length_app in Hw1. cbn in Hw1.
  unfold len in *. lia.
Qed.

(* ================================================================== *)
(** * Properties of the QA fusion *)
(* ================================================================== *)

(** ** Positive floats are totally ordered *)

Lemma positive_float_cases x :
  positive_float x -> x = S754_infinity false \/ exists m e, x = S754_finite false m e.
Proof.
  unfold positive_float, flt, SFltb, f_zero.
  destruct x as [s|[]| |[] m e]; cbn; try done; eauto.
Qed.

Lemma flt_finite m1 e1 m2 e2 :
  flt (S754_finite false m1 e1) (S754_finite false m2 e2) = true <->
  e1 < e2 \/ (e1 = e2 /\ (m1 < m2)%positive).
Proof.
  unfold flt, SFltb. cbn. change (Pos.compare_cont Eq m1 m2) with (Pos.compare m1 m2).
  destruct (Z.compare_spec e1 e2); [|split; [lia|done]|split; [done|lia]].
  destruct (Pos.compare_spec m1 m2); split; try done; try lia.
Qed.

Lemma fle_finite m1 e1 m2 e2 :
  fle (S754_finite false m1 e1) (S754_finite false m2 e2) = true <->
  e1 < e2 \/ (e1 = e2 /\ (m1 <= m2)%positive).
Proof.
  unfold fle, SFleb. cbn. change (Pos.compare_cont Eq m1 m2) with (Pos.compare m1 m2).
  destruct (Z.compare_spec e1 e2); [|split; [lia|done]|split; [done|lia]].
  destruct (Pos.compare_spec m1 m2); split; try done; try lia.
Qed.


Lemma fle_of_not_flt x y :
  positive_float x -> positive_float y -> flt x y = false -> fle y x = true.
Proof.
  intros [->|(m1 & e1 & ->)]%positive_float_cases [->|(m2 & e2 & ->)]%positive_float_cases;
    try done.
  intros Hn. apply fle_finite.
  destruct (flt (S754_finite false m1 e1) (S754_finite false m2 e2)) eqn:E; [done|].
  assert (~ (e1 < e2 \/ (e1 = e2 /\ (m1 < m2)%positive))) by (rewrite <- flt_finite; congruence).
  lia.
Qed.



(** ** Ordered dictionaries *)


Lemma od_keys_get {K V} `{EqDecision K} (d : odict K V) k :
  k ∈ od_keys d <-> is_Some (od_get d k).
Proof.
  unfold od_keys. induction d as [|[k0 v0] d IH]; cbn.
  - split; [by intros ?%elem_of_nil | by intros [? ?]].
  - rewrite elem_of_cons, IH. destruct (decide (k = k0)); naive_solver.
Qed.

Lemma od_keys_set {K V} `{EqDecision K} (d : odict K V) k v :
  od_keys (od_set d k v) = if bool_decide (k ∈ od_keys d) then od_keys d else od_keys d ++ [k].
Proof.
  unfold od_keys. induction d as [|[k0 v0] d IH]; cbn; [done|].
  destruct (decide (k = k0)) as [->|Hne]; cbn.
  - rewrite bool_decide_true by left. done.
  - rewrite IH. case_bool_decide as H1; case_bool_decide as H2; try done.
    + exfalso. apply H2. by right.
    + apply elem_of_cons in H2 as [|]; done.
Qed.

(** ** Fusion *)










(* ================================================================== *)
(** * Properties of the assertion extractor *)
(* ================================================================== *)

(** ** Lengths of strings *)

Lemma length_append (s t : string) :
  String.length (s +:+ t) = (String.length s + String.length t)%nat.
Proof.
  induction s as [|c s IH]; [done|].
  change (String c s +:+ t) with (String c (s +:+ t)). cbn [String.length]. by rewrite IH.
Qed.

Lemma length_rev_app (s t : string) :
  String.length (String.rev_app s t) = (String.length s + String.length t)%nat.
Proof.
  revert t. induction s as [|c s IH]; intros t; cbn; [done|]. rewrite IH. cbn. lia.
Qed.

Lemma length_rev (s : string) : String.length (String.rev s) = String.length s.
Proof. unfold String.rev. rewrite length_rev_app. cbn. lia. Qed.

Lemma length_lstrip (s : string) : (String.length (lstrip s) <= String.length s)%nat.
Proof. induction s as [|c s IH]; cbn; [done|]. destruct (is_space c); cbn; lia. Qed.

Lemma length_rstrip (s : string) : (String.length (rstrip s) <= String.length s)%nat.
Proof.
  unfold rstrip. rewrite length_rev. etrans; [apply length_lstrip|]. by rewrite length_rev.
Qed.

Lemma length_substring_0 (n : nat) (s : string) :
  (String.length (substring 0 n s) <= n)%nat.
Proof.
  revert s. induction n as [|n IH]; intros [|c s]; cbn; try lia.
  specialize (IH s). lia.
Qed.

(** [take_quote] keeps its promise for every limit of three or more. *)
Lemma take_quote_length (text : string) (limit : Z) :
  3 <= limit -> str_len (take_quote text limit) <= limit.
Proof.
  intros Hlimit. unfold take_quote.
  destruct (Z.leb_spec (str_len (compact_spaces text)) limit) as [Hle|Hgt]; [done|].
  unfold str_len, str_take. rewrite length_append. cbn.
  pose proof (length_rstrip (substring 0 (Z.to_nat (Z.max 0 (limit - 3))) (compact_spaces text))).
  pose proof (length_substring_0 (Z.to_nat (Z.max 0 (limit - 3))) (compact_spaces text)).
  lia.
Qed.

(** ** Post-processing of assertions *)



(** What [post_process] does to one assertion. *)
Lemma post_process_spec eid seg_lookup a a' :
  post_process eid seg_lookup a = Some a' ->
  let kept := filter (fun sid => is_Some (seg_lookup !! sid)) (Assertion.segment_ids a) in
  Assertion.segment_ids a' = kept /\
  Assertion.episode_id a' = eid /\
  Assertion.statement a' = Assertion.statement a /\
  exists first_id first_seg,
    head kept = Some first_id /\ seg_lookup !! first_id = Some first_seg /\
    Assertion.evidence_quote a' =
      if bool_decide (Assertion.evidence_quote a = "") ||
         (evidence_limit <? str_len (Assertion.evidence_quote a))
      then take_quote (Segment.text first_seg) evidence_limit
      else Assertion.evidence_quote a.
Proof.
  unfold post_process. cbn zeta.
  destruct (filter _ (Assertion.segment_ids a)) as [|first_id rest] eqn:Ek; [done|].
  intros [= <-]. cbn. split_and!; try done.
  assert (Hin : first_id ∈ filter (fun sid => is_Some (seg_lookup !! sid)) (Assertion.segment_ids a)).
  { rewrite Ek. left. }
  apply list_elem_of_filter in Hin as [[first_seg Hseg] _].
  exists first_id, first_seg. rewrite Hseg. done.
Qed.



(** ** What reaches the [assertions] table *)





(* ================================================================== *)
(** * Properties of the entity table *)
(* ================================================================== *)

(** ** Tables with a unique column *)

Lemma filter_unique {A B} `{EqDecision B} (f : A -> B) (k : B) (l : list A) :
  NoDup (f <$> l) ->
  filter (fun r => f r = k) l = [] \/ exists x, filter (fun r => f r = k) l = [x].
Proof.
  induction l as [|y l IH]; intros Hnd; [by left|].
  cbn in Hnd. apply NoDup_cons in Hnd as [Hy Hnd].
  rewrite filter_cons. destruct (decide (f y = k)) as [Hk|Hk]; [|by apply IH].
  right. exists y. f_equal. destruct (IH Hnd) as [->|[x Hx]]; [done|].
  exfalso. apply Hy. assert (Hin : x ∈ filter (fun r => f r = k) l) by (rewrite Hx; left).
  apply list_elem_of_filter in Hin as [Hfx Hin]. rewrite Hk, <- Hfx.
  by apply list_elem_of_fmap_2.
Qed.

Lemma NoDup_fmap_eq {A B} (f : A -> B) (l : list A) x y :
  NoDup (f <$> l) -> x ∈ l -> y ∈ l -> f x = f y -> x = y.
Proof.
  induction l as [|z l IH]; intros Hnd Hx Hy Hf; [by apply elem_of_nil in Hx|].
  cbn in Hnd. apply NoDup_cons in Hnd as [Hz Hnd].
  apply elem_of_cons in Hx as [->|Hx]; apply elem_of_cons in Hy as [->|Hy]; try done.
  - exfalso. apply Hz. rewrite Hf. by apply list_elem_of_fmap_2.
  - exfalso. apply Hz. rewrite <- Hf. by apply list_elem_of_fmap_2.
  - by apply IH.
Qed.

Lemma fresh_id_above ids i : Some i ∈ ids -> i < fresh_id ids.
Proof.
  unfold fresh_id. induction ids as [|[j|] ids IH]; cbn.
  - by intros ?%elem_of_nil.
  - intros [[= ->]|Hin]%elem_of_cons; [lia|]. specialize (IH Hin). lia.
  - intros [?|Hin]%elem_of_cons; [done|]. by apply IH.
Qed.

Lemma fresh_id_new ids : Some (fresh_id ids) ∉ ids.
Proof. intros H%fresh_id_above. lia. Qed.

Lemma elem_of_sorted_set a l : a ∈ sorted_set l <-> a ∈ l.
Proof. unfold sorted_set. by rewrite elem_of_sorted_by, elem_of_remove_dups. Qed.

(** ** [upsert_entities] *)

Lemma write_back_id_fmap {A} (key : A -> option Z) (row : A) rows :
  key <$> write_back key row rows = key <$> rows.
Proof.
  unfold write_back. rewrite <- list_fmap_compose. apply list_fmap_ext.
  intros i r _. cbn. by destruct (decide (key r = key row)) as [->|].
Qed.

Lemma upsert_entity_step eid rows stored ent rows' stored' :
  upsert_entity eid (rows, stored) ent = Ret (rows', stored') ->
  entities_wf rows ->
  entities_wf rows' /\
  forall r, r ∈ rows -> exists r', r' ∈ rows' /\ merged eid [ent] r r'.
Proof.
  unfold upsert_entity. intros Hr [Hnames Hids].
  set (canonical := normalize_name (Entity.canonical_name ent)) in *.
  destruct (filter_unique Entity.canonical_name canonical rows Hnames) as [Hf|[ex Hf]];
    rewrite Hf in Hr; cbn in Hr; injection Hr as <- <-.
  - (* a new row *)
    assert (Hfresh : forall r, r ∈ rows -> Entity.canonical_name r <> canonical).
    { intros r Hin Hname.
      assert (r ∈ filter (fun r => Entity.canonical_name r = canonical) rows)
        by (by apply list_elem_of_filter).
      rewrite Hf in H. by apply elem_of_nil in H. }
    split.
    + split; rewrite fmap_app; apply NoDup_app; (split; [done|]); cbn;
        (split; [|apply NoDup_singleton]).
      * intros name (r & -> & Hin)%list_elem_of_fmap [= Heq]%list_elem_of_singleton.
        by apply (Hfresh r).
      * intros i Hi ->%list_elem_of_singleton. by apply fresh_id_new in Hi.
    + intros r Hin. exists r. split; [apply elem_of_app; by left|].
      unfold merged. split_and!; try done.
      * intros e ->%list_elem_of_singleton Hname. by apply Hfresh in Hin.
      * by left.
  - (* the row is there *)
    assert (Hex : ex ∈ rows /\ Entity.canonical_name ex = canonical).
    { assert (ex ∈ filter (fun r => Entity.canonical_name r = canonical) rows)
        by (rewrite Hf; left).
      apply list_elem_of_filter in H. tauto. }
    destruct Hex as [Hex Hexname].
    set (updated := Entity.mk _ _ _ _ _ _).
    assert (Hone : forall r, r ∈ rows -> Entity.id r = Entity.id updated -> r = ex).
    { intros r Hin Hid. by apply (NoDup_fmap_eq Entity.id rows). }
    assert (Hother : forall r, r ∈ rows -> Entity.canonical_name r = canonical -> r = ex).
    { intros r Hin Hname. apply (NoDup_fmap_eq Entity.canonical_name rows); congruence. }
    split.
    + split; [|by rewrite write_back_id_fmap].
      replace (Entity.canonical_name <$> write_back Entity.id updated rows)
        with (Entity.canonical_name <$> rows); [done|].
      unfold write_back. rewrite <- list_fmap_compose. apply list_fmap_ext.
      intros i r Hr. cbn. destruct (decide _) as [Hid|]; [|done].
      apply list_elem_of_lookup_2 in Hr. by rewrite (Hone r Hr Hid).
    + intros r Hin. destruct (decide (Entity.id r = Entity.id updated)) as [Hid|Hid].
      * exists updated. split.
        { unfold write_back. apply list_elem_of_fmap. exists r. by rewrite decide_True. }
        rewrite (Hone r Hin Hid). unfold merged. cbn. split_and!; try done.
        -- intros a Ha. apply elem_of_sorted_set, elem_of_app. by left.
        -- intros e ->%list_elem_of_singleton _. split; [done|].
           intros a Ha. apply elem_of_sorted_set, elem_of_app. by right.
        -- intros a [Ha|Ha]%elem_of_sorted_set%elem_of_app; [by left|].
           right. exists ent. split_and!; [left|done|done].
        -- intros Hno. exfalso. apply (Hno ent); [left|done].
      * exists r. split.
        { unfold write_back. apply list_elem_of_fmap. exists r. by rewrite decide_False. }
        unfold merged. split_and!; try done.
        -- intros e ->%list_elem_of_singleton Hname. exfalso. apply Hid.
           by rewrite (Hother r Hin).
        -- by left.
Qed.

Lemma merged_trans eid ent ents r r1 r' :
  merged eid [ent] r r1 -> merged eid ents r1 r' -> merged eid (ent :: ents) r r'.
Proof.
  intros (Hid1 & Hn1 & Hsub1 & Hnew1 & Hex1 & Hsame1) (Hid2 & Hn2 & Hsub2 & Hnew2 & Hex2 & Hsame2).
  unfold merged. split_and!.
  - congruence.
  - congruence.
  - auto.
  - intros e [->|Hin]%elem_of_cons Hname.
    + destruct (Hnew1 ent) as [Hlast Hal]; [left|done|].
      split; [|auto].
      destruct (decide (Exists (fun e => normalize_name (Entity.canonical_name e) =
                                         Entity.canonical_name r1) ents)) as [Hsome|Hnone].
      * apply Exists_exists in Hsome as (e' & He' & Hn'). by apply (Hnew2 e').
      * rewrite Hsame2; [done|]. intros e' He' Hn'. apply Hnone, Exists_exists. by exists e'.
    + apply (Hnew2 e); [done|congruence].
  - intros a Ha. destruct (Hex2 a Ha) as [Ha1|(e & He & Hn & Hae)].
    + destruct (Hex1 a Ha1) as [?|(e & ->%list_elem_of_singleton & Hn & Hae)]; [by left|].
      right. exists ent. split_and!; [left|done|done].
    + right. exists e. split_and!; [by right|congruence|done].
  - intros Hno. rewrite Hsame2, Hsame1; try done.
    + intros e ->%list_elem_of_singleton. apply Hno. left.
    + intros e He. rewrite Hn1. apply Hno. by right.
Qed.

Lemma merged_refl eid r : merged eid [] r r.
Proof.
  unfold merged. split_and!; try done.
  - by intros ? ?%elem_of_nil.
  - by left.
Qed.

Lemma upsert_entities_rows eid ents rows stored rows' stored' :
  for_each (upsert_entity eid) ents (rows, stored) = Ret (rows', stored') ->
  entities_wf rows ->
  entities_wf rows' /\
  forall r, r ∈ rows -> exists r', r' ∈ rows' /\ merged eid ents r r'.
Proof.
  revert rows stored. induction ents as [|ent ents IH]; intros rows stored Hr Hwf.
  - injection Hr as <- <-. split; [done|]. intros r Hin. exists r. split; [done|apply merged_refl].
  - apply for_each_cons_inv in Hr as ([rows1 stored1] & E1 & Hr).
    apply upsert_entity_step in E1 as [Hwf1 Hstep]; [|done].
    apply IH in Hr as [Hwf' Hrest]; [|done]. split; [done|].
    intros r Hin. destruct (Hstep r Hin) as (r1 & Hin1 & Hm1).
    destruct (Hrest r1 Hin1) as (r' & Hin' & Hm'). exists r'. split; [done|].
    by eapply merged_trans.
Qed.

Lemma upsert_entities_succeeds eid ents rows stored :
  entities_wf rows ->
  exists out, for_each (upsert_entity eid) ents (rows, stored) = Ret out.
Proof.
  revert rows stored. induction ents as [|ent ents IH]; intros rows stored Hwf; [cbn; eauto|].
  change (for_each (upsert_entity eid) (ent :: ents) (rows, stored))
    with (bind (upsert_entity eid (rows, stored) ent) (for_each (upsert_entity eid) ents)).
  assert (exists s1, upsert_entity eid (rows, stored) ent = Ret s1) as [[rows1 stored1] E1].
  { unfold upsert_entity.
    destruct (filter_unique Entity.canonical_name
                (normalize_name (Entity.canonical_name ent)) rows (proj1 Hwf)) as [->|[ex ->]];
      cbn; eauto. }
  rewrite E1. cbn. apply IH. by apply upsert_entity_step in E1 as [? _].
Qed.

(** C8: on a table with unique names and keys [upsert_entities] returns, the
    table still has unique names and keys (no second row for a name), and
    every row of the table before is a row after with the same key and name
    whose aliases include the old ones and those of every upserted entity of
    that normalized name, and nothing else; [last_seen_episode_id] is the
    current episode when such an entity was upserted. *)
Theorem aliases_only_grow eid ents d :
  entities_wf (storage.entities d) ->
  exists d' stored,
    upsert_entities eid ents d = Ret (d', stored) /\
    entities_wf (storage.entities d') /\
    forall r, r ∈ storage.entities d ->
      exists r', r' ∈ storage.entities d' /\ merged eid ents r r'.
Proof.
  intros Hwf. unfold upsert_entities.
  destruct (upsert_entities_succeeds eid ents (storage.entities d) [] Hwf) as [[rows' st] E].
  rewrite E. cbn. do 2 eexists. split; [done|]. cbn.
  by apply upsert_entities_rows in E.
Qed.

(* ================================================================== *)
(** * Properties of the ingestion graph *)
(* ================================================================== *)

(** ** Transactions that leave the cards alone *)

Ltac keeps_cards_tac :=
  intros d d' a; cbv beta delta [upsert_episode upsert_segments upsert_topics upsert_chunks
    upsert_entities upsert_assertions upsert_embeddings];
  unfold mbind, py_bind, bind, mret, py_ret;
  repeat case_match; intros [= <- <-]; reflexivity.

Lemma upsert_episode_keeps_cards episode : keeps_cards (upsert_episode episode).
Proof. keeps_cards_tac. Qed.

Lemma upsert_segments_keeps_cards sha eid segs : keeps_cards (upsert_segments sha eid segs).
Proof. keeps_cards_tac. Qed.

Lemma upsert_topics_keeps_cards eid items : keeps_cards (upsert_topics eid items).
Proof. keeps_cards_tac. Qed.

Lemma upsert_chunks_keeps_cards sha eid items : keeps_cards (upsert_chunks sha eid items).
Proof. keeps_cards_tac. Qed.

Lemma upsert_entities_keeps_cards eid ents : keeps_cards (upsert_entities eid ents).
Proof. keeps_cards_tac. Qed.

Lemma upsert_assertions_keeps_cards sha items : keeps_cards (upsert_assertions sha items).
Proof. keeps_cards_tac. Qed.

Lemma transaction_keeps_cards {A} (f : DB -> py (DB * A)) w :
  keeps_cards f ->
  storage.tech_cards (db (transaction f w).1) = storage.tech_cards (db w).
Proof.
  intros Hf. unfold transaction. destruct (f (db w)) as [[d' a]| |] eqn:E; cbn; [|done..].
  by eapply Hf.
Qed.

Lemma bind_card_frame {A B} (m : io A) (k : A -> io B) :
  (forall w, storage.tech_cards (db (m w).1) = storage.tech_cards (db w)) ->
  (forall a, card_frame (k a)) ->
  card_frame (m ≫= k).
Proof.
  intros Hm Hk w. unfold mbind, io_mbind, io_bind. specialize (Hm w).
  destruct (m w) as [w' [a| |]]; cbn in *; [|done..].
  rewrite <- Hm. apply Hk.
Qed.

Lemma bind_refine_frame {A} state (m : io A) (k : A -> io GraphState) :
  (forall a, refine_frame state (k a)) ->
  refine_frame state (m ≫= k).
Proof.
  intros Hk w state'. unfold mbind, io_mbind, io_bind.
  destruct (m w) as [w' [a| |]]; cbn; [|done..]. apply Hk.
Qed.

Lemma ret_card_frame {A} (a : A) : card_frame (mret a).
Proof. by intros w. Qed.

Lemma lift_keeps {A} (m : py A) w : storage.tech_cards (db (lift m w).1) = storage.tech_cards (db w).
Proof. done. Qed.

Lemma oracle_keeps {A} (f : nat -> py A) w :
  storage.tech_cards (db (oracle f w).1) = storage.tech_cards (db w).
Proof. done. Qed.

Lemma query_keeps {A} (f : DB -> A) w :
  storage.tech_cards (db (query f w).1) = storage.tech_cards (db w).
Proof. done. Qed.

Ltac card_frame_tac :=
  repeat first
    [ apply ret_card_frame
    | apply bind_card_frame;
      [ intros ?;
        first [ apply lift_keeps | apply oracle_keeps | apply query_keeps
              | apply transaction_keeps_cards;
                first [ apply upsert_episode_keeps_cards | apply upsert_segments_keeps_cards
                      | apply upsert_topics_keeps_cards | apply upsert_chunks_keeps_cards
                      | apply upsert_entities_keeps_cards | apply upsert_assertions_keeps_cards ] ]
      | intros ? ] ].

Lemma parse_card_frame env state : card_frame (parse_and_segment env state).
Proof. unfold parse_and_segment. card_frame_tac. Qed.

Lemma topics_card_frame env state : card_frame (topic_threader env state).
Proof. unfold topic_threader. card_frame_tac. Qed.

Lemma chunk_builder_card_frame state : card_frame (chunk_builder state).
Proof. unfold chunk_builder. card_frame_tac. Qed.

Lemma chunk_persist_card_frame env state : card_frame (chunk_persist env state).
Proof. unfold chunk_persist. card_frame_tac. Qed.

Lemma entities_card_frame env state : card_frame (entity_extractor env state).
Proof. unfold entity_extractor. card_frame_tac. Qed.

Lemma assertions_card_frame env state : card_frame (assertion_extractor env state).
Proof. unfold assertion_extractor. card_frame_tac. Qed.

Lemma upsert_embeddings_keeps_cards object_type ids vectors model_name dims :
  keeps_cards (fun d => d' ← upsert_embeddings object_type ids vectors model_name dims d;
                        mret (d', tt)).
Proof.
  intros d d' a. unfold upsert_embeddings, mbind, py_bind, bind, mret, py_ret.
  destruct (for_each _ _ _); [|done..]. by intros [= <- <-].
Qed.

Lemma embed_chunks_card_frame env items : card_frame (embed_chunks env items).
Proof.
  unfold embed_chunks. case_match; [apply ret_card_frame|].
  apply bind_card_frame; [intros ?; apply query_keeps|]. intros existing.
  case_match; [apply ret_card_frame|].
  apply bind_card_frame; [intros ?; apply lift_keeps|]. intros vectors.
  apply bind_card_frame; [|intros ?; apply ret_card_frame].
  intros ?. apply transaction_keeps_cards, upsert_embeddings_keeps_cards.
Qed.

Lemma index_card_frame env state : card_frame (indexer env state).
Proof.
  unfold indexer. apply bind_card_frame.
  - intros w. destruct (chunks state) as [[|c rest]|]; try done.
    all: unfold mbind, io_mbind, io_bind, lift, query;
      destruct (require (episode_id state)); done.
  - intros items. apply bind_card_frame; [apply embed_chunks_card_frame|]. intros _.
    apply ret_card_frame.
Qed.

(** ** The refinement keys *)

Lemma bind_refine_frame' {A} state (m : io A) (k : A -> io GraphState) :
  (forall a, refine_frame state (k a)) -> refine_frame state (m ≫= k).
Proof. apply bind_refine_frame. Qed.

Lemma ret_refine_frame state state2 :
  refine_count state2 = refine_count state -> needs_refine state2 = needs_refine state ->
  refine_frame state (mret state2).
Proof. intros H1 H2 w state' [= <-]. done. Qed.

Ltac refine_frame_tac :=
  repeat (apply bind_refine_frame; intros ?); by apply ret_refine_frame.

Lemma parse_refine_frame env state : refine_frame state (parse_and_segment env state).
Proof. unfold parse_and_segment. refine_frame_tac. Qed.

Lemma topics_refine_frame env state : refine_frame state (topic_threader env state).
Proof. unfold topic_threader. refine_frame_tac. Qed.

Lemma chunk_builder_refine_frame state : refine_frame state (chunk_builder state).
Proof. unfold chunk_builder. refine_frame_tac. Qed.

Lemma chunk_persist_refine_frame env state : refine_frame state (chunk_persist env state).
Proof. unfold chunk_persist. refine_frame_tac. Qed.

Lemma entities_refine_frame env state : refine_frame state (entity_extractor env state).
Proof. unfold entity_extractor. refine_frame_tac. Qed.

Lemma assertions_refine_frame env state : refine_frame state (assertion_extractor env state).
Proof. unfold assertion_extractor. refine_frame_tac. Qed.

Lemma index_refine_frame env state : refine_frame state (indexer env state).
Proof. unfold indexer. refine_frame_tac. Qed.

(** ** Card synthesis under an oracle that asks for a refinement *)

Lemma card_upserter_refine env state w result :
  call_json_cards env (calls w) (default [] (nodes.entities state))
    (default [] (nodes.assertions state)) = Ret result ->
  CardResult.needs_refine result = true ->
  card_upserter env state w =
    (mkWorld (db w) (S (calls w)),
     Ret (set_refine state true (default 0 (refine_count state) + 1))).
Proof.
  intros Hcall Hflag. unfold card_upserter, mbind, io_mbind, io_bind, oracle.
  rewrite Hcall, Hflag. done.
Qed.

Lemma card_upserter_always_refines env state w :
  always_refines env ->
  card_upserter env state w =
    (mkWorld (db w) (S (calls w)),
     Ret (set_refine state true (default 0 (refine_count state) + 1))).
Proof.
  intros Hall.
  destruct (Hall (calls w) (default [] (nodes.entities state))
              (default [] (nodes.assertions state))) as [cards Hcall].
  by eapply card_upserter_refine.
Qed.

Lemma ingest_card_frame env n state :
  always_refines env -> card_frame (ingest_fn env n state).
Proof.
  intros Hall. destruct n; cbn.
  - by intros w.
  - by intros w.
  - apply parse_card_frame.
  - apply topics_card_frame.
  - apply chunk_builder_card_frame.
  - apply chunk_persist_card_frame.
  - apply entities_card_frame.
  - apply assertions_card_frame.
  - intros w. by rewrite card_upserter_always_refines.
  - apply index_card_frame.
Qed.

Lemma run_from_card_frame {N} (fn : N -> GraphState -> io GraphState) next limit n w state :
  (forall n state, card_frame (fn n state)) ->
  storage.tech_cards (db (world (run_from fn next limit n w state))) = storage.tech_cards (db w).
Proof.
  intros Hfn. revert n w state. induction limit as [|limit IH]; intros n w state; [done|].
  cbn. specialize (Hfn n state w).
  destruct (fn n state w) as [w' [state'| |]]; cbn in *; try done.
  destruct (next n state'); cbn; [|done]. by rewrite IH.
Qed.

(** ** The path of a run whose oracle always asks for a refinement *)

Lemma run_from_S {N} (fn : N -> GraphState -> io GraphState) next limit n w state :
  run_from fn next (S limit) n w state =
  match fn n state w with
  | (w', Ret state') =>
      match next n state' with
      | None => mkRun w' [n] (Ret state')
      | Some n' => cons_run n (run_from fn next limit n' w' state')
      end
  | (w', failed) => mkRun w' [n] failed
  end.
Proof. done. Qed.

Lemma runs_along_cons n path r : runs_along path r -> runs_along (n :: path) (cons_run n r).
Proof.
  intros [Hpre Hret]. split; cbn.
  - by apply prefix_cons.
  - intros state' Hout. destruct (Hret state' Hout) as (-> & ? & ?). done.
Qed.

Lemma runs_along_failed n path w (out : py GraphState) :
  (forall state', out <> Ret state') -> runs_along (n :: path) (mkRun w [n] out).
Proof.
  intros Hout. split; cbn.
  - apply prefix_cons, prefix_nil.
  - intros state' ->. by destruct (Hout state').
Qed.

Lemma edge_count_prefix {N} `{EqDecision N} (a b : N) (l1 l2 : list N) :
  l1 `prefix_of` l2 -> (edge_count a b l1 <= edge_count a b l2)%nat.
Proof.
  revert l2. induction l1 as [|x l1 IH]; intros l2 [k ->]; [cbn; lia|].
  destruct l1 as [|y l1]; [cbn; destruct k; lia|].
  specialize (IH ((y :: l1) ++ k) ltac:(by eexists)).
  change ((x :: y :: l1) ++ k) with (x :: y :: (l1 ++ k)).
  change ((y :: l1) ++ k) with (y :: (l1 ++ k)) in IH.
  cbn [edge_count] in *. lia.
Qed.

Ltac run_step lem :=
  rewrite run_from_S; cbn [ingest_fn];
  match goal with
  | |- context [match ?m ?w with _ => _ end] =>
      let F := fresh "F" in
      eassert (refine_frame _ m) as F by (apply lem);
      specialize (F w);
      destruct (m w) as [? [?| |]]; cbn [ingest_next];
      [ destruct (F _ eq_refl) as [? ?]; clear F;
        cbn [refine_count needs_refine set_refine] in *; apply runs_along_cons
      | by apply runs_along_failed.. ]
  end.

Ltac card_step Hall count :=
  rewrite run_from_S; cbn [ingest_fn];
  rewrite (card_upserter_always_refines _ _ _ Hall);
  cbn [ingest_next]; unfold should_refine; cbn [needs_refine refine_count set_refine];
  match goal with
  | |- context [default 0 (refine_count ?g)] =>
      replace (default 0 (refine_count g)) with count
        by (symmetry; first [congruence | match goal with
                                         | H : refine_count g = _ |- _ => by rewrite H
                                         end])
  end.

Lemma refining_run_path env w state :
  always_refines env ->
  default 0 (refine_count state) = 0 ->
  runs_along refining_path (invoke_ingest env w state).
Proof.
  intros Hall Hzero. unfold invoke_ingest, recursion_limit, refining_path.
  run_step parse_refine_frame.
  run_step topics_refine_frame.
  run_step chunk_builder_refine_frame.
  run_step chunk_persist_refine_frame.
  run_step entities_refine_frame.
  run_step assertions_refine_frame.
  (* cards, first pass: the refine edge *)
  card_step Hall 0.
  change (default false (Some true) && (0 + 1 <? 2)) with true.
  rewrite bool_decide_true by done. apply runs_along_cons.
  run_step assertions_refine_frame.
  (* cards, second pass: on to the indexer *)
  card_step Hall 1.
  change (default false (Some true) && (1 + 1 <? 2)) with false.
  rewrite bool_decide_false by done. apply runs_along_cons.
  (* index *)
  rewrite run_from_S. cbn [ingest_fn].
  match goal with
  | |- context [match ?m ?w with _ => _ end] =>
      eassert (refine_frame _ m) as F by (apply index_refine_frame);
      specialize (F w);
      destruct (m w) as [w' [s'| |]]; cbn [ingest_next];
      [|by apply runs_along_failed..]
  end.
  destruct (F s' eq_refl) as [Fc Fn]. split; [done|].
  intros ? [= <-]. split_and!; [done| |]; [rewrite Fc|rewrite Fn]; done.
Qed.

(** ** The first kept segment of an assertion *)

(** C9: an assertion that post-processing keeps has a first segment id, the
    lookup of that id succeeds, and its evidence quote is either the one it
    came with or [take_quote] of that segment's text: the branch that quotes
    the statement is never taken. *)
Theorem first_segment_lookup_succeeds (seg_lookup : gmap Z Segment.t) eid a a' :
  post_process eid seg_lookup a = Some a' ->
  exists first_id first_seg,
    head (Assertion.segment_ids a') = Some first_id /\
    seg_lookup !! first_id = Some first_seg /\
    (Assertion.evidence_quote a' = Assertion.evidence_quote a \/
     Assertion.evidence_quote a' = take_quote (Segment.text first_seg) evidence_limit).
Proof.
  intros H. apply post_process_spec in H as (Hids & _ & _ & fid & fseg & Hhead & Hlook & Hq).
  exists fid, fseg. rewrite Hids. split_and!; [done..|].
  rewrite Hq. destruct (_ || _); auto.
Qed.

Lemma first_segment_lookup_succeeds_witness :
  exists a' first_id first_seg,
    post_process 1 (seg_lookup_of three_segments) quoteless = Some a' /\
    head (Assertion.segment_ids a') = Some first_id /\
    seg_lookup_of three_segments !! first_id = Some first_seg /\
    (Assertion.evidence_quote a' = Assertion.evidence_quote quoteless \/
     Assertion.evidence_quote a' = take_quote (Segment.text first_seg) evidence_limit).
Proof.
  eexists.
  destruct (first_segment_lookup_succeeds (seg_lookup_of three_segments) 1 quoteless _
              ltac:(vm_compute; reflexivity)) as (first_id & first_seg & H).
  exists first_id, first_seg. split; [vm_compute; reflexivity|exact H].
Defined.

(** ** The fallback tiers of [qa_chain] *)

Lemma slice_to_take {A} (l : list A) n : 0 <= n -> slice_to l n = take (Z.to_nat n) l.
Proof.
  intros Hn. unfold slice_to, slice.
  rewrite (clamp_index_id (len l) 0) by (unfold len; lia).
  unfold clamp_index. replace (n <? 0) with false by lia.
  cbn [Z.to_nat drop]. apply take_same_effect. unfold len. lia.
Qed.

Lemma fallback_hits_spec question segs :
  let matches :=
    filter (fun seg => contains (lower question) (lower (Segment.text seg)) = true) segs in
  (matches <> [] -> fallback_hits question segs = matches) /\
  (matches = [] -> fallback_hits question segs = take 3 segs) /\
  (forall seg, seg ∈ segs -> contains (lower question) (lower (Segment.text seg)) = true ->
     seg ∈ fallback_hits question segs) /\
  (fallback_hits question segs = [] <-> segs = []).
Proof.
  intros matches. unfold fallback_hits. fold matches.
  assert (Hin : forall seg, seg ∈ segs ->
            contains (lower question) (lower (Segment.text seg)) = true -> seg ∈ matches).
  { intros seg Hs Hc. by apply list_elem_of_filter. }
  destruct matches as [|m ms] eqn:Em.
  - split_and!.
    + done.
    + intros _. by apply slice_to_take.
    + intros seg Hs Hc. by apply Hin, elem_of_nil in Hc.
    + rewrite slice_to_take by lia. destruct segs; cbn; split; done.
  - split_and!.
    + done.
    + done.
    + intros seg Hs Hc. by apply Hin.
    + split; [done|]. intros ->. done.
Qed.

Lemma answer_text_of_returns env mode question citations :
  (forall prompt, chat_invoke env prompt <> Diverge) ->
  exists text, answer_text_of env mode question citations = Ret text.
Proof.
  intros Hchat. unfold answer_text_of.
  destruct (context_line <$> _) as [|c cs]; cbn; [eauto|].
  match goal with |- context [chat_invoke env ?p] =>
    specialize (Hchat p); destruct (chat_invoke env p) end; cbn; eauto. done.
Qed.

(** C5 (amended): when the search raises or finds no segment (and the chat
    model raises or returns), [qa_chain] returns, leaves the world as it was
    and cites the first 8 of the fallback hits. These are the segments whose
    text holds the question as a case-insensitive substring, in the order of
    the episode, or the first 3 segments when there is none; a segment that
    holds the question is among the hits. There is no citation exactly when
    the episode has no segment. *)
Theorem qa_fallback env w state q segs :
  question state = Some q ->
  qa_segments state (db w) = Ret segs ->
  retrieve env (db w) state q <> Diverge ->
  (forall hits, retrieve env (db w) state q = Ret hits -> hits = []) ->
  (forall prompt, chat_invoke env prompt <> Diverge) ->
  (exists text,
     qa_chain env state w =
       (w, Ret (set_answer state
                  (QAAnswer.mk text (citation_of <$> take 8 (fallback_hits q segs)))))) /\
  (let matches :=
     filter (fun seg => contains (lower q) (lower (Segment.text seg)) = true) segs in
   (matches <> [] -> fallback_hits q segs = matches) /\
   (matches = [] -> fallback_hits q segs = take 3 segs)) /\
  (forall seg, seg ∈ segs -> contains (lower q) (lower (Segment.text seg)) = true ->
     seg ∈ fallback_hits q segs) /\
  (citation_of <$> take 8 (fallback_hits q segs) = [] <-> segs = []).
Proof.
  intros Hq Hsegs Hnd Hempty Hchat.
  destruct (fallback_hits_spec q segs) as (H1 & H2 & H3 & H4).
  split_and!; try done.
  - unfold qa_chain, mbind, io_mbind, io_bind, lift. rewrite Hq. cbn [require].
    rewrite Hsegs.
    assert (Hhits : qa_hits env (db w) state q segs = Ret (fallback_hits q segs)).
    { unfold qa_hits. destruct (retrieve env (db w) state q) as [hits|e|] eqn:E; cbn; try done.
      by rewrite (Hempty hits eq_refl). }
    rewrite Hhits. rewrite slice_to_take by lia.
    destruct (answer_text_of_returns env (default "fast" (mode state)) q
                (citation_of <$> take (Z.to_nat 8) (fallback_hits q segs)) Hchat) as [text Ht].
    rewrite Ht. by exists text.
  - rewrite <- H4. destruct (fallback_hits q segs); cbn; split; done.
Qed.

(** The question "ALPHA" asked of the two-segment episode while the search
    is offline. *)
Lemma qa_fallback_witness :
  exists text,
    qa_chain stub_env (qa_state 1 "ALPHA") (mkWorld crossed_db 0) =
      (mkWorld crossed_db 0,
       Ret (set_answer (qa_state 1 "ALPHA")
              (QAAnswer.mk text (citation_of <$> take 8 (fallback_hits "ALPHA"
                                                          [seg 1 "alpha"; seg 2 "beta"]))))) /\
    fallback_hits "ALPHA" [seg 1 "alpha"; seg 2 "beta"] = [seg 1 "alpha"].
Proof.
  destruct (qa_fallback stub_env (mkWorld crossed_db 0) (qa_state 1 "ALPHA") "ALPHA"
              [seg 1 "alpha"; seg 2 "beta"]) as [[text Hrun] _].
  - reflexivity.
  - vm_compute. reflexivity.
  - vm_compute. discriminate.
  - vm_compute. discriminate.
  - intros prompt. vm_compute. discriminate.
  - exists text. split; [exact Hrun|vm_compute; reflexivity].
Defined.

(** With the search offline, an episode without segments gets no citation,
    and of nine segments that hold the question the ninth is not cited. *)
Lemma qa_citations_counterexample :
  (exists st ans, (qa_chain stub_env (qa_state 1 "cost") (mkWorld empty_db 0)).2 = Ret st /\
                  answer st = Some ans /\ QAAnswer.citations ans = []) /\
  (exists st ans,
     (qa_chain stub_env (qa_state 1 "cost")
        (mkWorld (with_segments empty_db nine_segments) 0)).2 = Ret st /\
     answer st = Some ans /\
     contains (lower "cost") (lower (Segment.text (seg 9 "cost of inference"))) = true /\
     seg 9 "cost of inference" ∈ fetch_episode_segments 1 (with_segments empty_db nine_segments) /\
     Some 9 ∉ Citation.segment_id <$> QAAnswer.citations ans).
Proof.
  split.
  - do 2 eexists. split_and!; vm_compute; reflexivity.
  - do 2 eexists. split_and!; try (vm_compute; reflexivity).
    + apply list_elem_of_lookup_2 with 8%nat. vm_compute. reflexivity.
    + apply (bool_decide_unpack _). vm_compute. reflexivity.
Qed.

(** ** The order of the segments the fusion path returns *)

Lemma fetch_segments_by_ids_order_blind ids ids' d :
  ids ≡ₚ ids' -> fetch_segments_by_ids ids d = fetch_segments_by_ids ids' d.
Proof.
  intros Hp. unfold fetch_segments_by_ids.
  destruct ids as [|i ids0], ids' as [|i' ids0'].
  - done.
  - by apply Permutation_nil_l in Hp.
  - by apply Permutation_nil_r in Hp.
  - apply list_filter_iff. intros r. by rewrite Hp.
Qed.

(** C2: a run of the fusion path on which the returned segments are not in
    the order of the ranking. The one query finds chunk 10 (score 1/1.1) and
    chunk 11 (score 1/1.5); chunk 10 holds segment 2 and chunk 11 segment 1,
    so the ranked, expanded and deduplicated segment ids are [2; 1]; but
    [retrieve] returns segment 1 before segment 2, the order of the table,
    and these are the hits [qa_chain] cites. *)
Theorem fusion_order_lost :
  exists chunk_scores,
    for_each (fuse_query fusion_env crossed_db 8 (Some 1)) ["A"] [] = Ret chunk_scores /\
    ranked_chunk_ids chunk_scores = [Some 10; Some 11] /\
    ranked_segment_ids crossed_db (ranked_chunk_ids chunk_scores) = [2; 1] /\
    retrieve fusion_env crossed_db (qa_state 1 "A") "A" = Ret [seg 1 "alpha"; seg 2 "beta"] /\
    qa_hits fusion_env crossed_db (qa_state 1 "A") "A" [seg 1 "alpha"; seg 2 "beta"] =
      Ret [seg 1 "alpha"; seg 2 "beta"].
Proof. eexists. split_and!; vm_compute; reflexivity. Qed.

(** ** The refinement loop *)

(** C1 (amended): with an oracle that signals [needs_refine] at every card
    synthesis, an ingestion started with the refinement counter at 0 visits a
    prefix of parse, topics, chunk_builder, chunk_persist, entities,
    assertions, cards, assertions, cards, index, so it ends within the
    recursion limit, and it takes the edge from [cards] back to [assertions]
    at most once. A run that returns went through the whole path: it took
    that edge exactly once, ran card synthesis exactly twice, ended at the
    indexer, and left [refine_count] at 2. *)
Theorem refine_bound env w state :
  always_refines env ->
  default 0 (refine_count state) = 0 ->
  let r := invoke_ingest env w state in
  visited r `prefix_of` refining_path /\
  (edge_count n_cards n_assertions (visited r) <= 1)%nat /\
  forall state', outcome r = Ret state' ->
    visited r = refining_path /\
    edge_count n_cards n_assertions (visited r) = 1%nat /\
    length (filter (fun n => n = n_cards) (visited r)) = 2%nat /\
    last (visited r) = Some n_index /\
    refine_count state' = Some 2.
Proof.
  intros Hall Hzero r.
  destruct (refining_run_path env w state Hall Hzero) as [Hpre Hret]. fold r in Hpre, Hret.
  split_and!; [done| |].
  - etrans; [by apply edge_count_prefix|]. vm_compute. lia.
  - intros state' Hout. destruct (Hret state' Hout) as (-> & Hc & _).
    split_and!; try done.
Qed.

Lemma refining_env_always_refines : always_refines refining_env.
Proof. intros n ents asserts. eexists. reflexivity. Qed.

Lemma refine_bound_witness :
  let r := invoke_ingest refining_env fresh_world (ingest_state ["Hello world."]) in
  (exists state', outcome r = Ret state' /\ refine_count state' = Some 2) /\
  visited r `prefix_of` refining_path /\
  (edge_count n_cards n_assertions (visited r) <= 1)%nat.
Proof.
  intros r.
  destruct (refine_bound refining_env fresh_world (ingest_state ["Hello world."])
              refining_env_always_refines eq_refl) as (Hpre & Hle & _).
  split; [|split; [exact Hpre|exact Hle]].
  eexists. split; vm_compute; reflexivity.
Defined.

(** The oracle asks for a refinement at every card synthesis, the run
    returns, and the edge from [cards] back to [assertions] was taken once. *)
Lemma refine_edge_twice_counterexample :
  let r := invoke_ingest refining_env fresh_world (ingest_state ["Hello world."]) in
  always_refines refining_env /\
  (exists state', outcome r = Ret state') /\
  edge_count n_cards n_assertions (visited r) = 1%nat /\
  edge_count n_cards n_assertions (visited r) <> 2%nat.
Proof.
  intros r. split_and!.
  - apply refining_env_always_refines.
  - eexists. vm_compute. reflexivity.
  - vm_compute. reflexivity.
  - vm_compute. discriminate.
Qed.

(** C10: a card synthesis whose result signals [needs_refine] returns with
    the database as it was and the [cards] key of the state untouched; and
    under an oracle that signals it at every synthesis the [tech_cards] table
    after an ingestion is the table before it, while a run started with the
    counter at 0 that returns has ended at the indexer after ten nodes. *)
Theorem refine_pass_persists_no_card env :
  (forall state w result,
     call_json_cards env (calls w) (default [] (nodes.entities state))
       (default [] (nodes.assertions state)) = Ret result ->
     CardResult.needs_refine result = true ->
     db (card_upserter env state w).1 = db w /\
     exists state', (card_upserter env state w).2 = Ret state' /\
                    nodes.cards state' = nodes.cards state) /\
  (always_refines env ->
   forall w state,
     let r := invoke_ingest env w state in
     storage.tech_cards (db (world r)) = storage.tech_cards (db w) /\
     (default 0 (refine_count state) = 0 ->
      forall state', outcome r = Ret state' ->
        last (visited r) = Some n_index /\ length (visited r) = 10%nat)).
Proof.
  split.
  - intros state w result Hcall Hflag. rewrite (card_upserter_refine _ _ _ _ Hcall Hflag).
    cbn. split; [done|]. by eexists.
  - intros Hall w state r. split.
    + apply run_from_card_frame. intros n st. by apply ingest_card_frame.
    + intros Hzero state' Hout.
      destruct (refining_run_path env w state Hall Hzero) as [_ Hret].
      destruct (Hret state' Hout) as (Hv & _). fold r in Hv. by rewrite Hv.
Qed.

Lemma refine_pass_persists_no_card_witness :
  let r := invoke_ingest refining_env fresh_world (ingest_state ["Hello world."]) in
  storage.tech_cards (db (world r)) = [] /\
  last (visited r) = Some n_index.
Proof.
  intros r.
  destruct (refine_pass_persists_no_card refining_env) as [_ H].
  destruct (H refining_env_always_refines fresh_world (ingest_state ["Hello world."]))
    as [Hcards Hpath].
  split; [exact Hcards|].
  assert (Hout : exists state', outcome r = Ret state') by (eexists; vm_compute; reflexivity).
  destruct Hout as [state' Hout]. by destruct (Hpath eq_refl state' Hout).
Defined.

(** ** Runs on the example worlds *)

Lemma windowing_budget_witness :
  exists chunks,
    build_chunks_from_topics [] three_segments default_max_tokens default_min_segs
      default_max_segs default_overlap = Ret chunks /\
    forall c, c ∈ chunks -> default_min_segs <= len (Chunk.segment_ids c).
Proof.
  destruct (windowing_budget [] three_segments default_max_tokens default_min_segs
              default_max_segs default_overlap) as [Hex Hall].
  destruct (Hex ltac:(vm_compute; discriminate)) as [chunks Hc].
  exists chunks. split; [exact Hc|].
  intros c Hin. destruct (Hall chunks Hc c Hin) as (_ & Hmin & _). exact Hmin.
Defined.


Lemma aliases_only_grow_witness :
  exists d' stored,
    upsert_entities (Some 2) stub_entities one_entity_db = Ret (d', stored) /\
    entities_wf (storage.entities d') /\
    forall r, r ∈ storage.entities one_entity_db ->
      exists r', r' ∈ storage.entities d' /\ merged (Some 2) stub_entities r r'.
Proof.
  apply (aliases_only_grow (Some 2) stub_entities one_entity_db).
  split; cbn; apply NoDup_singleton.
Defined.



(* ================================================================== *)
(** * Further properties of the code *)
(* ================================================================== *)

(** ** A flag that the counter does not cap *)








(** ** Reads of the segments table *)


(** ** The QA graph *)

Lemma optimize_query_keeps_db env state w :
  db (optimize_query_node env state w).1 = db w /\
  (calls (optimize_query_node env state w).1 <= S (calls w))%nat.
Proof.
  unfold optimize_query_node, mbind, io_mbind, io_bind, lift, oracle, mret, io_mret, io_ret.
  destruct (require (question state)) as [q| |]; cbn; [|split; [done|lia]..].
  destruct (call_json_query_optimizer env (calls w) q (episode_id state)); cbn;
    split; first [done|lia].
Qed.

Lemma qa_chain_keeps_world env state w : (qa_chain env state w).1 = w.
Proof.
  unfold qa_chain, mbind, io_mbind, io_bind, lift, mret, io_mret, io_ret.
  destruct (require (question state)) as [q| |]; cbn; [|done..].
  destruct (qa_segments state (db w)) as [segs| |]; cbn; [|done..].
  destruct (qa_hits env (db w) state q segs) as [hits| |]; cbn; [|done..].
  destruct (answer_text_of env _ q _); done.
Qed.

(** A run of the QA graph reads the database and never writes it: the run
    visits [optimize_query] and then [qa] at most, makes one [call_json] call
    at most, and leaves every table as it was, whatever the collaborators
    answer and whether the run returns or raises. *)
Theorem qa_run_reads_only env w state :
  let r := invoke_qa env w state in
  db (world r) = db w /\
  visited r `prefix_of` [n_optimize_query; n_qa] /\
  (calls (world r) <= S (calls w))%nat.
Proof.
  intros r. subst r. unfold invoke_qa, recursion_limit.
  rewrite run_from_S. cbn [qa_fn].
  pose proof (optimize_query_keeps_db env state w) as [Hdb Hcalls].
  destruct (optimize_query_node env state w) as [w1 [state1| |]]; cbn in Hdb, Hcalls;
    cbn [qa_next]; [|cbn; split_and!; [done|by exists [n_qa]|done]..].
  rewrite run_from_S. cbn [qa_fn].
  pose proof (qa_chain_keeps_world env state1 w1) as Hw.
  destruct (qa_chain env state1 w1) as [w2 [state2| |]]; cbn in Hw; subst w2;
    cbn; split_and!; done.
Qed.

(** ** The citations of an answer *)

Lemma citation_quote_length seg : str_len (Citation.quote (citation_of seg)) <= 360.
Proof. cbn. by apply take_quote_length. Qed.

Lemma retrieve_hits_stored env d state q hits :
  retrieve env d state q = Ret hits -> forall seg, seg ∈ hits -> seg ∈ storage.segments d.
Proof.
  unfold retrieve.
  match goal with |- context [let '(_, _) := ?x in _] => destruct x as [queries top_k] end.
  destruct (for_each (fuse_query env d top_k (episode_id state)) queries []) as [sc| |];
    cbn; [|done..].
  intros [= <-] seg Hin. destruct (ranked_segment_ids d (ranked_chunk_ids sc)) as [|i ids] eqn:E.
  - by apply elem_of_nil in Hin.
  - rewrite <- E in Hin. unfold fetch_segments_by_ids in Hin.
    destruct (ranked_segment_ids _ _); [by apply elem_of_nil in Hin|].
    by apply list_elem_of_filter in Hin as [_ ?].
Qed.

Lemma qa_segments_source state d segs :
  qa_segments state d = Ret segs ->
  forall seg, seg ∈ segs -> seg ∈ default [] (segments state) \/ seg ∈ storage.segments d.
Proof.
  unfold qa_segments. intros Hs seg Hin.
  destruct (segments state) as [[|s rest]|]; cbn in *.
  - destruct (require (episode_id state)); cbn in Hs; [|done..]. injection Hs as <-.
    right. by apply list_elem_of_filter in Hin as [_ ?].
  - injection Hs as <-. by left.
  - destruct (require (episode_id state)); cbn in Hs; [|done..]. injection Hs as <-.
    right. by apply list_elem_of_filter in Hin as [_ ?].
Qed.

(** Whatever [qa_chain] answers, it cites at most 8 segments, each a segment
    of the state or a row of the segments table, with a quote of at most 360
    characters; nothing else of the state changes. *)
Theorem qa_citations_bounded env state w state' :
  (qa_chain env state w).2 = Ret state' ->
  exists ans,
    state' = set_answer state ans /\
    (length (QAAnswer.citations ans) <= 8)%nat /\
    forall c, c ∈ QAAnswer.citations ans ->
      str_len (Citation.quote c) <= 360 /\
      exists seg, c = citation_of seg /\
        (seg ∈ default [] (segments state) \/ seg ∈ storage.segments (db w)).
Proof.
  unfold qa_chain, mbind, io_mbind, io_bind, lift, mret, io_mret, io_ret.
  destruct (require (question state)) as [q| |]; cbn; [|done..].
  destruct (qa_segments state (db w)) as [segs| |] eqn:Esegs; cbn; [|done..].
  destruct (qa_hits env (db w) state q segs) as [hits| |] eqn:Ehits; cbn; [|done..].
  destruct (answer_text_of env _ q _) as [text| |]; cbn; [|done..].
  intros [= <-]. eexists. split; [done|]. cbn.
  rewrite slice_to_take by done. split.
  - rewrite length_fmap, length_take. lia.
  - intros c (seg & -> & Hin)%list_elem_of_fmap. split; [apply citation_quote_length|].
    exists seg. split; [done|]. apply elem_of_take in Hin as (i & Hin & _).
    apply list_elem_of_lookup_2 in Hin.
    unfold qa_hits in Ehits.
    destruct (retrieve env (db w) state q) as [found| |] eqn:Er; cbn in Ehits.
    + injection Ehits as <-. destruct found as [|f found].
      * apply qa_segments_source with (seg := seg) in Esegs; [done|].
        unfold fallback_hits in Hin. case_match.
        -- by eapply elem_of_slice.
        -- match goal with H : filter _ segs = _ |- _ => rewrite <- H in Hin end.
           by apply list_elem_of_filter in Hin as [_ ?].
      * right. by eapply retrieve_hits_stored.
    + injection Ehits as <-.
      apply qa_segments_source with (seg := seg) in Esegs; [done|].
      unfold fallback_hits in Hin. case_match.
      -- by eapply elem_of_slice.
      -- match goal with H : filter _ segs = _ |- _ => rewrite <- H in Hin end.
         by apply list_elem_of_filter in Hin as [_ ?].
    + done.
Qed.

Lemma qa_citations_bounded_witness :
  exists state' ans,
    (qa_chain stub_env (qa_state 1 "cost")
       (mkWorld (with_segments empty_db nine_segments) 0)).2 = Ret state' /\
    answer state' = Some ans /\
    length (QAAnswer.citations ans) = 8%nat /\
    forall c, c ∈ QAAnswer.citations ans -> str_len (Citation.quote c) <= 360.
Proof.
  assert (Hrun : exists state',
            (qa_chain stub_env (qa_state 1 "cost")
               (mkWorld (with_segments empty_db nine_segments) 0)).2 = Ret state')
    by (eexists; vm_compute; reflexivity).
  destruct Hrun as [state' Hrun].
  destruct (qa_citations_bounded _ _ _ _ Hrun) as (ans & Hans & _ & Hq).
  exists state', ans. split; [exact Hrun|]. split; [by rewrite Hans|]. split.
  - clear Hq. vm_compute in Hrun. injection Hrun as <-.
    apply (f_equal answer) in Hans. vm_compute in Hans. injection Hans as <-.
    vm_compute. reflexivity.
  - intros c Hc. by destruct (Hq c Hc).
Defined.

(** ** The ranking of the fused chunks *)

Lemma insert_sorted_permutation {A} (lt : A -> A -> bool) x l :
  insert_sorted lt x l ≡ₚ x :: l.
Proof.
  induction l as [|y l IH]; cbn; [done|].
  destruct (lt y x); [|done]. rewrite IH. apply Permutation_swap.
Qed.

Lemma sorted_by_permutation {A} (lt : A -> A -> bool) l : sorted_by lt l ≡ₚ l.
Proof.
  unfold sorted_by. induction l as [|x l IH]; cbn [foldr]; [done|].
  rewrite insert_sorted_permutation. by rewrite IH.
Qed.

Lemma flt_irrefl x : flt x x = false.
Proof.
  unfold flt, SFltb, SFcompare. destruct x as [[]|[]| |[] m e]; cbn; try done.
  - rewrite Z.compare_refl. change (Pos.compare_cont Eq m m) with (Pos.compare m m).
    by rewrite Pos.compare_refl.
  - rewrite Z.compare_refl. change (Pos.compare_cont Eq m m) with (Pos.compare m m).
    by rewrite Pos.compare_refl.
Qed.

(** A stable sort: the items of one key keep the order they had. *)
Lemma insert_sorted_stable {A B} `{EqDecision B} (key : A -> B) (lt : A -> A -> bool) k x l :
  (forall a b, lt a b = true -> key a <> key b) ->
  filter (fun a => key a = k) (insert_sorted lt x l) = filter (fun a => key a = k) (x :: l).
Proof.
  intros Hlt. induction l as [|y l IH]; cbn; [done|].
  destruct (lt y x) eqn:E; [|done].
  rewrite filter_cons, IH, !filter_cons.
  apply Hlt in E. repeat case_decide; first [reflexivity | congruence].
Qed.

Lemma sorted_by_stable {A B} `{EqDecision B} (key : A -> B) (lt : A -> A -> bool) k l :
  (forall a b, lt a b = true -> key a <> key b) ->
  filter (fun a => key a = k) (sorted_by lt l) = filter (fun a => key a = k) l.
Proof.
  intros Hlt. unfold sorted_by. induction l as [|x l IH]; cbn [foldr]; [done|].
  rewrite (insert_sorted_stable key lt k x _ Hlt), !filter_cons, IH. done.
Qed.

Lemma fle_trans_pos x y z :
  positive_float x -> positive_float y -> positive_float z ->
  fle x y = true -> fle y z = true -> fle x z = true.
Proof.
  intros [->|(m1 & e1 & ->)]%positive_float_cases [->|(m2 & e2 & ->)]%positive_float_cases
         [->|(m3 & e3 & ->)]%positive_float_cases; try done.
  rewrite !fle_finite. lia.
Qed.

Lemma flt_fle_pos x y :
  positive_float x -> positive_float y -> flt x y = true -> fle x y = true.
Proof.
  intros [->|(m1 & e1 & ->)]%positive_float_cases [->|(m2 & e2 & ->)]%positive_float_cases;
    try done.
  rewrite flt_finite, fle_finite. lia.
Qed.

Lemma insert_sorted_descending {A} (key : A -> float) x l :
  positive_float (key x) -> Forall (fun a => positive_float (key a)) l ->
  StronglySorted (fun a b => fle (key b) (key a) = true) l ->
  StronglySorted (fun a b => fle (key b) (key a) = true)
    (insert_sorted (fun a b => flt (key b) (key a)) x l).
Proof.
  intros Hx Hpos Hs. induction Hs as [|y l Hs IH Hy]; cbn.
  - repeat constructor.
  - apply Forall_cons in Hpos as [Hpy Hpos].
    destruct (flt (key x) (key y)) eqn:E.
    + constructor; [by apply IH|].
      apply Forall_forall. intros z Hz.
      apply elem_of_insert_sorted in Hz as [->|Hz].
      * by apply flt_fle_pos.
      * rewrite Forall_forall in Hy. by apply Hy.
    + assert (Hyx : fle (key y) (key x) = true) by (by apply fle_of_not_flt).
      constructor; [by constructor|].
      constructor; [done|].
      apply Forall_forall. intros z Hz.
      rewrite Forall_forall in Hy. specialize (Hy z Hz).
      rewrite Forall_forall in Hpos. specialize (Hpos z Hz).
      by apply (fle_trans_pos _ (key y)).
Qed.

Lemma sorted_by_descending {A} (key : A -> float) l :
  Forall (fun a => positive_float (key a)) l ->
  StronglySorted (fun a b => fle (key b) (key a) = true)
    (sorted_by (fun a b => flt (key b) (key a)) l).
Proof.
  induction l as [|x l IH]; intros Hpos; [constructor|].
  change (sorted_by (fun a b => flt (key b) (key a)) (x :: l)) with
    (insert_sorted (fun a b => flt (key b) (key a)) x
       (sorted_by (fun a b => flt (key b) (key a)) l)).
  apply Forall_cons in Hpos as [Hx Hpos].
  apply insert_sorted_descending; [done| |by apply IH].
  apply Forall_forall. intros a Ha. apply elem_of_sorted_by in Ha.
  rewrite Forall_forall in Hpos. by apply Hpos.
Qed.

Lemma StronglySorted_lookup {A} (R : A -> A -> Prop) l :
  StronglySorted R l ->
  forall i j x y, l !! i = Some x -> l !! j = Some y -> (i < j)%nat -> R x y.
Proof.
  induction 1 as [|a l Hs IH Ha]; intros i j x y Hi Hj Hij; [done|].
  destruct j as [|j]; [lia|]. cbn in Hj. destruct i as [|i]; cbn in Hi.
  - injection Hi as ->. rewrite Forall_forall in Ha. apply Ha.
    by eapply list_elem_of_lookup_2.
  - apply (IH i j); [done..|lia].
Qed.

#[local] Instance float_eq_dec : EqDecision float.
Proof. unfold float. solve_decision. Defined.

(** The ranking of [qa_chain] holds every fused chunk id once, ids of one
    score in the order the search first met them, and, when the scores are
    above zero, no id before one of a higher score. *)
Theorem ranking_descending_stable (chunk_scores : odict (option Z) float) :
  let score cid := default (S754_zero false) (od_get chunk_scores cid) in
  ranked_chunk_ids chunk_scores ≡ₚ od_keys chunk_scores /\
  (forall k, filter (fun cid => score cid = k) (ranked_chunk_ids chunk_scores) =
             filter (fun cid => score cid = k) (od_keys chunk_scores)) /\
  (Forall (fun p => SFltb (S754_zero false) p.2 = true) chunk_scores ->
   forall i j cid1 cid2,
     ranked_chunk_ids chunk_scores !! i = Some cid1 ->
     ranked_chunk_ids chunk_scores !! j = Some cid2 ->
     (i < j)%nat ->
     SFleb (score cid2) (score cid1) = true).
Proof.
  intros score. unfold ranked_chunk_ids. fold f_zero.
  change (sorted_by _ (od_keys chunk_scores)) with
    (sorted_by (fun a b => flt (score b) (score a)) (od_keys chunk_scores)).
  split_and!.
  - apply sorted_by_permutation.
  - intros k. apply (sorted_by_stable score). intros a b Hlt Heq. cbv beta in Hlt.
    rewrite Heq in Hlt. by rewrite flt_irrefl in Hlt.
  - intros Hpos i j cid1 cid2 Hi Hj Hij.
    assert (Hkeys : Forall (fun cid => positive_float (score cid)) (od_keys chunk_scores)).
    { apply Forall_forall. intros cid Hcid. apply od_keys_get in Hcid as [s Hs].
      unfold score. rewrite Hs. cbn.
      assert (Hin : (cid, s) ∈ chunk_scores).
      { clear -Hs. induction chunk_scores as [|[k v] l IH]; cbn in Hs; [done|].
        destruct (decide (cid = k)) as [->|]; [injection Hs as ->; left|right; by apply IH]. }
      rewrite Forall_forall in Hpos. by apply (Hpos _ Hin). }
    pose proof (sorted_by_descending score _ Hkeys) as Hs.
    by apply (StronglySorted_lookup _ _ Hs i j cid1 cid2).
Qed.

(** ** Upserts keyed by a content hash *)

(** The loops of [upsert_segments], [upsert_chunks] and [upsert_assertions]
    have one shape: look the item's hash up among the rows, hand back the row
    found, or append a row with that hash. *)
Section LookupOrAppend.
Context {Item Row S K : Type} `{EqDecision K}.
Variable f : S -> Item -> py S.
Variable rows : S -> list Row.
Variable stored : S -> list Row.
Variable push : S -> Row -> S.
Variable item_key : Item -> K.
Variable row_key : Row -> option K.

Hypothesis push_rows : forall st e, rows (push st e) = rows st.
Hypothesis step_hit : forall st i e,
  filter (fun r => row_key r = Some (item_key i)) (rows st) = [e] -> f st i = Ret (push st e).
Hypothesis step_cases : forall st i st',
  f st i = Ret st' ->
  (exists e, filter (fun r => row_key r = Some (item_key i)) (rows st) = [e] /\ st' = push st e) \/
  (exists c, filter (fun r => row_key r = Some (item_key i)) (rows st) = [] /\
             row_key c = Some (item_key i) /\ rows st' = rows st ++ [c] /\
             stored st' = stored st ++ [c]).
Hypothesis push_stored : forall st e, stored (push st e) = stored st ++ [e].

Lemma first_run items st st1 :
  for_each f items st = Ret st1 ->
  exists picked,
    stored st1 = stored st ++ picked /\
    rows st `prefix_of` rows st1 /\
    (forall k, filter (fun r => row_key r = Some k) (rows st) <> [] ->
       filter (fun r => row_key r = Some k) (rows st1) =
       filter (fun r => row_key r = Some k) (rows st)) /\
    Forall2 (fun i r => filter (fun r' => row_key r' = Some (item_key i)) (rows st1) = [r])
      items picked.
Proof.
  revert st. induction items as [|i items IH]; intros st Hrun.
  - injection Hrun as <-. exists []. rewrite app_nil_r. split_and!; [done..|constructor].
  - apply for_each_cons_inv in Hrun as (st' & Hstep & Hrun).
    apply IH in Hrun as (picked & Hst & Hpre & Hkeep & Hall).
    apply step_cases in Hstep as [(e & He & ->)|(c & Hnone & Hc & Hrows & Hstored)].
    + rewrite push_rows in Hpre, Hkeep. rewrite push_stored in Hst.
      exists (e :: picked). rewrite <- app_assoc in Hst. split_and!; try done.
      constructor; [|done]. rewrite Hkeep; [done|]. by rewrite He.
    + rewrite Hrows in Hpre, Hkeep. rewrite Hstored, <- app_assoc in Hst.
      exists (c :: picked). split_and!; try done.
      * etrans; [|exact Hpre]. by apply prefix_app_r.
      * intros k Hk. rewrite Hkeep.
        -- rewrite filter_app, filter_cons_False, filter_nil, app_nil_r; [done|].
           intros Heq. rewrite Hc in Heq. injection Heq as <-. by rewrite Hnone in Hk.
        -- rewrite filter_app. intros Hnil. apply app_eq_nil in Hnil as [Hnil _]. done.
      * constructor; [|done]. rewrite Hkeep.
        -- by rewrite filter_app, Hnone, filter_cons_True.
        -- rewrite filter_app, Hnone, filter_cons_True by done. done.
Qed.

Lemma second_run items picked st :
  Forall2 (fun i r => filter (fun r' => row_key r' = Some (item_key i)) (rows st) = [r])
    items picked ->
  for_each f items st = Ret (foldl push st picked).
Proof.
  revert picked st. induction items as [|i items IH]; intros picked st Hall.
  - apply Forall2_nil_inv_l in Hall as ->. done.
  - apply Forall2_cons_inv_l in Hall as (e & picked' & He & Hall & ->).
    cbn [for_each foldl]. rewrite (step_hit _ _ _ He). cbn.
    apply IH. eapply Forall2_impl; [exact Hall|]. intros ? ? ?. by rewrite push_rows.
Qed.

End LookupOrAppend.

(** [foldl] of the three ways to hand a row back. *)
Lemma foldl_push_pair {A B} (rows : A) (stored picked : list B) :
  foldl (fun (st : A * list B) e => (st.1, st.2 ++ [e])) (rows, stored) picked =
  (rows, stored ++ picked).
Proof.
  revert stored. induction picked as [|e picked IH]; intros stored; cbn.
  - by rewrite app_nil_r.
  - rewrite IH, <- app_assoc. done.
Qed.

Lemma foldl_push_triple {A B C} (rows : A) (links : B) (stored picked : list C) :
  foldl (fun (st : A * B * list C) e => (st.1.1, st.1.2, st.2 ++ [e])) (rows, links, stored) picked =
  (rows, links, stored ++ picked).
Proof.
  revert stored. induction picked as [|e picked IH]; intros stored; cbn.
  - by rewrite app_nil_r.
  - rewrite IH, <- app_assoc. done.
Qed.

Lemma scalar_one_or_none_cases {A} (l : list A) (o : option A) :
  scalar_one_or_none l = Ret o ->
  match o with
  | Some e => (l = [e])
  | None => (l = [])
  end.
Proof. destruct l as [|x [|y l]]; cbn; intros [= <-]; done. Qed.

Lemma upsert_segment_cases sha eid st seg st' :
  upsert_segment sha eid st seg = Ret st' ->
  let key := if truthy (Segment.hash seg) then default "" (Segment.hash seg)
             else hash_text sha (Segment.text seg) in
  (exists e, filter (fun r => Segment.hash r = Some key) st.1 = [e] /\
             st' = (st.1, st.2 ++ [e])) \/
  (exists c, filter (fun r => Segment.hash r = Some key) st.1 = [] /\
             Segment.hash c = Some key /\ st'.1 = st.1 ++ [c] /\ st'.2 = st.2 ++ [c]).
Proof.
  destruct st as [rows stored]. unfold upsert_segment. cbn zeta.
  destruct (scalar_one_or_none _) as [[e|]| |] eqn:E; cbn; try done.
  - apply scalar_one_or_none_cases in E. intros [= <-]; cbv zeta. left. exists e. split; [exact E|reflexivity].
  - apply scalar_one_or_none_cases in E. intros [= <-]; cbv zeta. right. eexists. split; [exact E|]. split; [|split; reflexivity]. reflexivity.
Qed.

Lemma upsert_chunk_cases sha eid st chunk st' :
  upsert_chunk sha eid st chunk = Ret st' ->
  let key := hash_text sha (Chunk.chunk_text chunk) in
  (exists e, filter (fun r => Chunk.chunk_hash r = Some key) st.1.1 = [e] /\
             st' = (st.1.1, st.1.2, st.2 ++ [e])) \/
  (exists c, filter (fun r => Chunk.chunk_hash r = Some key) st.1.1 = [] /\
             Chunk.chunk_hash c = Some key /\ st'.1.1 = st.1.1 ++ [c] /\ st'.2 = st.2 ++ [c]).
Proof.
  destruct st as [[rows links] stored]. unfold upsert_chunk. cbn zeta.
  destruct (scalar_one_or_none _) as [[e|]| |] eqn:E; cbn; try done.
  - apply scalar_one_or_none_cases in E. intros [= <-]; cbv zeta. left. exists e. split; [exact E|reflexivity].
  - apply scalar_one_or_none_cases in E. intros [= <-]; cbv zeta. right. eexists. split; [exact E|]. split; [|split; reflexivity]. reflexivity.
Qed.

Lemma upsert_assertion_cases sha st a st' :
  upsert_assertion sha st a = Ret st' ->
  let key := assertion_hash sha a in
  (exists e, filter (fun r => Assertion.hash r = Some key) st.1 = [e] /\
             st' = (st.1, st.2 ++ [e])) \/
  (exists c, filter (fun r => Assertion.hash r = Some key) st.1 = [] /\
             Assertion.hash c = Some key /\ st'.1 = st.1 ++ [c] /\ st'.2 = st.2 ++ [c]).
Proof.
  destruct st as [rows stored]. unfold upsert_assertion. cbn zeta.
  destruct (scalar_one_or_none _) as [[e|]| |] eqn:E; cbn; try done.
  - apply scalar_one_or_none_cases in E. intros [= <-]; cbv zeta. left. exists e. split; [exact E|reflexivity].
  - apply scalar_one_or_none_cases in E. intros [= <-]; cbv zeta. right. eexists. split; [exact E|]. split; [|split; reflexivity]. reflexivity.
Qed.

Lemma upsert_segments_again sha eid eid' segs d d1 stored :
  upsert_segments sha eid segs d = Ret (d1, stored) ->
  upsert_segments sha eid' segs d1 = Ret (d1, stored) /\
  storage.segments d `prefix_of` storage.segments d1 /\
  length stored = length segs.
Proof.
  unfold upsert_segments.
  destruct (for_each _ segs (storage.segments d, [])) as [[rows1 st1]| |] eqn:E; cbn; [|done..].
  intros [= <- <-].
  pose (key := fun seg => if truthy (Segment.hash seg) then default "" (Segment.hash seg)
                          else hash_text sha (Segment.text seg)).
  destruct (first_run (upsert_segment sha eid) fst snd (fun st e => (st.1, st.2 ++ [e]))
              key Segment.hash (fun _ _ => eq_refl) (upsert_segment_cases sha eid)
              (fun _ _ => eq_refl) _ _ _ E) as (picked & Hst & Hpre & _ & Hall).
  cbn in Hst, Hpre, Hall. subst st1.
  rewrite (second_run (upsert_segment sha eid') fst (fun st e => (st.1, st.2 ++ [e]))
             key Segment.hash (fun _ _ => eq_refl)) with (picked := picked).
  - rewrite foldl_push_pair. cbn. split_and!; [done..|]. by apply Forall2_length in Hall.
  - intros [rows stored] seg e He. unfold upsert_segment. cbn zeta.
    unfold key in He. cbn in He. by rewrite He.
  - exact Hall.
Qed.

Lemma upsert_chunks_again sha eid eid' items d d1 stored :
  upsert_chunks sha eid items d = Ret (d1, stored) ->
  upsert_chunks sha eid' items d1 = Ret (d1, stored) /\
  storage.chunks d `prefix_of` storage.chunks d1 /\
  length stored = length items.
Proof.
  unfold upsert_chunks.
  destruct (for_each _ items (storage.chunks d, chunk_segments d, []))
    as [[[rows1 links1] st1]| |] eqn:E; cbn; [|done..].
  intros [= <- <-].
  pose (key := fun chunk => hash_text sha (Chunk.chunk_text chunk)).
  destruct (first_run (upsert_chunk sha eid) (fun st => st.1.1) snd
              (fun st e => (st.1.1, st.1.2, st.2 ++ [e]))
              key Chunk.chunk_hash (fun _ _ => eq_refl) (upsert_chunk_cases sha eid)
              (fun _ _ => eq_refl) _ _ _ E) as (picked & Hst & Hpre & _ & Hall).
  cbn in Hst, Hpre, Hall. subst st1.
  rewrite (second_run (upsert_chunk sha eid') (fun st => st.1.1)
             (fun st e => (st.1.1, st.1.2, st.2 ++ [e]))
             key Chunk.chunk_hash (fun _ _ => eq_refl)) with (picked := picked).
  - rewrite foldl_push_triple. cbn. split_and!; [done..|]. by apply Forall2_length in Hall.
  - intros [[rows links] stored] chunk e He. unfold upsert_chunk. cbn zeta.
    unfold key in He. cbn in He. by rewrite He.
  - exact Hall.
Qed.

Lemma upsert_assertions_again sha items d d1 stored :
  upsert_assertions sha items d = Ret (d1, stored) ->
  upsert_assertions sha items d1 = Ret (d1, stored) /\
  storage.assertions d `prefix_of` storage.assertions d1 /\
  length stored = length items.
Proof.
  unfold upsert_assertions.
  destruct (for_each _ items (storage.assertions d, [])) as [[rows1 st1]| |] eqn:E; cbn; [|done..].
  intros [= <- <-].
  destruct (first_run (upsert_assertion sha) fst snd (fun st e => (st.1, st.2 ++ [e]))
              (assertion_hash sha) Assertion.hash (fun _ _ => eq_refl)
              (upsert_assertion_cases sha) (fun _ _ => eq_refl) _ _ _ E)
    as (picked & Hst & Hpre & _ & Hall).
  cbn in Hst, Hpre, Hall. subst st1.
  rewrite (second_run (upsert_assertion sha) fst (fun st e => (st.1, st.2 ++ [e]))
             (assertion_hash sha) Assertion.hash (fun _ _ => eq_refl)) with (picked := picked).
  - rewrite foldl_push_pair. cbn. split_and!; [done..|]. by apply Forall2_length in Hall.
  - intros [rows stored] a e He. unfold upsert_assertion. cbn zeta. cbn in He. by rewrite He.
  - exact Hall.
Qed.

(** Upserting the same segments, chunks or assertions a second time appends
    no row and hands back the rows of the first time: each loop looks the
    content hash up before it inserts. The first time no row is changed or
    removed either, and one row is handed back for every item. *)
Theorem hash_upserts_idempotent sha :
  (forall eid eid' segs d d1 stored,
     upsert_segments sha eid segs d = Ret (d1, stored) ->
     upsert_segments sha eid' segs d1 = Ret (d1, stored) /\
     storage.segments d `prefix_of` storage.segments d1 /\
     length stored = length segs) /\
  (forall eid eid' items d d1 stored,
     upsert_chunks sha eid items d = Ret (d1, stored) ->
     upsert_chunks sha eid' items d1 = Ret (d1, stored) /\
     storage.chunks d `prefix_of` storage.chunks d1 /\
     length stored = length items) /\
  (forall items d d1 stored,
     upsert_assertions sha items d = Ret (d1, stored) ->
     upsert_assertions sha items d1 = Ret (d1, stored) /\
     storage.assertions d `prefix_of` storage.assertions d1 /\
     length stored = length items).
Proof.
  split_and!.
  - intros. by eapply upsert_segments_again.
  - intros. by eapply upsert_chunks_again.
  - intros. by eapply upsert_assertions_again.
Qed.

Lemma hash_upserts_idempotent_witness :
  exists d1 stored,
    upsert_segments (fun s => s) (Some 1) [seg 7 "alpha"; seg 8 "beta"; seg 9 " alpha "] empty_db
      = Ret (d1, stored) /\
    length (storage.segments d1) = 2%nat /\
    upsert_segments (fun s => s) (Some 2) [seg 7 "alpha"; seg 8 "beta"; seg 9 " alpha "] d1
      = Ret (d1, stored).
Proof.
  assert (Hrun : exists d1 stored,
            upsert_segments (fun s => s) (Some 1)
              [seg 7 "alpha"; seg 8 "beta"; seg 9 " alpha "] empty_db = Ret (d1, stored) /\
            length (storage.segments d1) = 2%nat).
  { do 2 eexists. split; vm_compute; reflexivity. }
  destruct Hrun as (d1 & stored & Hrun & Hlen).
  exists d1, stored. split; [exact Hrun|]. split; [exact Hlen|].
  destruct (hash_upserts_idempotent (fun s => s)) as [Hsegs _].
  by destruct (Hsegs (Some 1) (Some 2) _ _ _ _ Hrun).
Defined.

(** ** Strings taken apart *)

Lemma str_append_nil_r (s : string) : s +:+ "" = s.
Proof.
  induction s as [|c s IH]; [done|].
  change (String c s +:+ "") with (String c (s +:+ "")). by rewrite IH.
Qed.

Lemma str_append_assoc (s t u : string) : (s +:+ t) +:+ u = s +:+ (t +:+ u).
Proof.
  induction s as [|c s IH]; [done|].
  change (String c s +:+ t) with (String c (s +:+ t)).
  change (String c (s +:+ t) +:+ u) with (String c ((s +:+ t) +:+ u)).
  change (String c s +:+ (t +:+ u)) with (String c (s +:+ (t +:+ u))). by rewrite IH.
Qed.

Lemma str_rev_app_append (s t : string) : String.rev_app s t = String.rev s +:+ t.
Proof.
  unfold String.rev. revert t. induction s as [|c s IH]; intros t; [done|].
  cbn [String.rev_app]. rewrite (IH (String c t)), (IH (String c "")).
  by rewrite str_append_assoc.
Qed.

Lemma str_rev_cons (c : ascii) (s : string) : String.rev (String c s) = String.rev s +:+ String c "".
Proof. unfold String.rev at 1. cbn [String.rev_app]. apply str_rev_app_append. Qed.

Lemma str_rev_append (s t : string) : String.rev (s +:+ t) = String.rev t +:+ String.rev s.
Proof.
  induction s as [|c s IH]; [by rewrite str_append_nil_r|].
  change (String c s +:+ t) with (String c (s +:+ t)).
  by rewrite !str_rev_cons, IH, str_append_assoc.
Qed.

Lemma str_rev_involutive (s : string) : String.rev (String.rev s) = s.
Proof.
  induction s as [|c s IH]; [done|].
  rewrite str_rev_cons, str_rev_append, IH. done.
Qed.

Lemma lstrip_suffix (s : string) : exists ws, s = ws +:+ lstrip s.
Proof.
  induction s as [|c s [ws IH]]; [by exists ""|]. cbn.
  destruct (is_space c); [|by exists ""].
  exists (String c ws). change (String c ws +:+ lstrip s) with (String c (ws +:+ lstrip s)).
  by rewrite <- IH.
Qed.

Lemma rstrip_prefix (s : string) : exists ws, s = rstrip s +:+ ws.
Proof.
  unfold rstrip. destruct (lstrip_suffix (String.rev s)) as [ws Hws].
  exists (String.rev ws). rewrite <- str_rev_append, <- Hws. by rewrite str_rev_involutive.
Qed.

Lemma substring_0_prefix (n : nat) (s : string) : exists t, s = substring 0 n s +:+ t.
Proof.
  revert s. induction n as [|n IH]; intros [|c s]; cbn.
  - by exists "".
  - by exists (String c s).
  - by exists "".
  - destruct (IH s) as [t Ht]. exists t.
    change (String c (substring 0 n s) +:+ t) with (String c (substring 0 n s +:+ t)).
    by rewrite <- Ht.
Qed.

(** ** Quotes *)

(** [take_quote] hands back the compacted text when it fits the limit and
    otherwise a part of it from its start, of at most [limit - 3]
    characters, followed by three dots. The result is within the limit
    whenever the limit is 3 or more; below that the three dots alone exceed
    it. *)
Theorem take_quote_shape (text : string) (limit : Z) :
  let trimmed := strip (sub_spaces false text) in
  let shown := Z.of_nat (String.length (take_quote text limit)) in
  shown <= Z.max limit 3 /\
  (Z.of_nat (String.length trimmed) <= limit -> take_quote text limit = trimmed) /\
  (limit < Z.of_nat (String.length trimmed) ->
   exists head rest,
     trimmed = head +:+ rest /\
     take_quote text limit = head +:+ "..." /\
     Z.of_nat (String.length head) <= Z.max 0 (limit - 3)) /\
  take_quote "abcdef" 2 = "...".
Proof.
  intros trimmed shown. subst shown. unfold take_quote, compact_spaces, str_len. fold trimmed.
  split_and!.
  - destruct (Z.leb_spec (Z.of_nat (String.length trimmed)) limit) as [Hle|Hgt]; [lia|].
    unfold str_take. rewrite length_append. cbn.
    pose proof (length_rstrip (substring 0 (Z.to_nat (Z.max 0 (limit - 3))) trimmed)).
    pose proof (length_substring_0 (Z.to_nat (Z.max 0 (limit - 3))) trimmed).
    lia.
  - intros Hle. by replace (_ <=? _) with true by lia.
  - intros Hgt. replace (_ <=? _) with false by lia. unfold str_take.
    set (n := Z.to_nat (Z.max 0 (limit - 3))).
    destruct (substring_0_prefix n trimmed) as [t Ht].
    destruct (rstrip_prefix (substring 0 n trimmed)) as [ws Hws].
    exists (rstrip (substring 0 n trimmed)), (ws +:+ t). split_and!.
    + by rewrite <- str_append_assoc, <- Hws.
    + done.
    + pose proof (length_rstrip (substring 0 n trimmed)).
      pose proof (length_substring_0 n trimmed). lia.
  - vm_compute. reflexivity.
Qed.

(** ** Timestamps *)















(** ** Names *)

Lemma is_space_lower c : is_space (lower_char c) = is_space c.
Proof. destruct c as [[] [] [] [] [] [] [] []]; reflexivity. Qed.

Lemma lower_char_idem c : lower_char (lower_char c) = lower_char c.
Proof. destruct c as [[] [] [] [] [] [] [] []]; reflexivity. Qed.

Lemma lower_idem s : lower (lower s) = lower s.
Proof. induction s as [|c s IH]; cbn; [done|]. by rewrite lower_char_idem, IH. Qed.

Lemma sub_spaces_idem b s : sub_spaces b (sub_spaces b s) = sub_spaces b s.
Proof.
  revert b. induction s as [|c s IH]; intros b; cbn; [done|].
  destruct (is_space c) eqn:Ec.
  - destruct b; [apply IH|]. cbn. by rewrite IH.
  - cbn. rewrite Ec. destruct b; by rewrite IH.
Qed.

Lemma sub_spaces_lower b s : sub_spaces b (lower s) = lower (sub_spaces b s).
Proof.
  revert b. induction s as [|c s IH]; intros b; cbn; [done|].
  rewrite is_space_lower. destruct (is_space c); [destruct b|]; cbn; by rewrite IH.
Qed.

Lemma last_char_append s c : last_char (s +:+ String c "") = Some c.
Proof.
  induction s as [|a s IH]; [done|].
  change (String a s +:+ String c "") with (String a (s +:+ String c "")).
  cbn. destruct (s +:+ String c "") eqn:E; [|done].
  destruct s; done.
Qed.

Lemma first_char_rev s : first_char (String.rev s) = last_char s.
Proof.
  induction s as [|c s IH]; [done|]. rewrite str_rev_cons.
  destruct s as [|a s]; [done|].
  change (last_char (String c (String a s))) with (last_char (String a s)).
  rewrite <- IH. destruct (String.rev (String a s)) eqn:E; [|done].
  apply (f_equal String.length) in E. rewrite length_rev in E. done.
Qed.

Lemma last_char_rev s : last_char (String.rev s) = first_char s.
Proof. rewrite <- first_char_rev, str_rev_involutive. done. Qed.

Lemma lstrip_fixed s : lstrip s = s <-> forall c, first_char s = Some c -> is_space c = false.
Proof.
  destruct s as [|c s]; cbn; [done|]. destruct (is_space c) eqn:Ec; split.
  - intros Hs. exfalso. pose proof (length_lstrip s) as Hl.
    apply (f_equal String.length) in Hs. cbn in Hs. lia.
  - intros H. specialize (H c eq_refl). congruence.
  - intros _ ? [= <-]. done.
  - done.
Qed.

Lemma str_rev_inj s t : String.rev s = String.rev t -> s = t.
Proof. intros H. apply (f_equal String.rev) in H. by rewrite !str_rev_involutive in H. Qed.

Lemma rstrip_fixed s : rstrip s = s <-> forall c, last_char s = Some c -> is_space c = false.
Proof.
  unfold rstrip. rewrite <- first_char_rev, <- lstrip_fixed. split.
  - intros H. apply (f_equal String.rev) in H. by rewrite str_rev_involutive in H.
  - intros ->. apply str_rev_involutive.
Qed.

Lemma lstrip_first s c : first_char (lstrip s) = Some c -> is_space c = false.
Proof.
  induction s as [|a s IH]; cbn; [done|].
  destruct (is_space a) eqn:Ea; [done|]. by intros [= <-].
Qed.

Lemma lstrip_last s c :
  last_char (lstrip s) = Some c -> last_char s = Some c.
Proof.
  induction s as [|a s IH]; cbn; [done|].
  destruct (is_space a); [|done]. intros H. specialize (IH H).
  destruct s; [done|exact IH].
Qed.

Lemma rstrip_last s c : last_char (rstrip s) = Some c -> is_space c = false.
Proof. unfold rstrip. rewrite last_char_rev. apply lstrip_first. Qed.

Lemma strip_stripped s : stripped (strip s).
Proof.
  unfold strip. split; intros c Hc.
  - by eapply lstrip_first.
  - apply lstrip_last in Hc. by eapply rstrip_last.
Qed.

Lemma stripped_strip s : stripped s -> strip s = s.
Proof.
  intros [Hf Hl]. unfold strip.
  assert (Hr : rstrip s = s) by (by apply rstrip_fixed).
  rewrite Hr. by apply lstrip_fixed.
Qed.

Lemma sub_spaces_first b s c :
  (forall a, first_char s = Some a -> is_space a = false) ->
  first_char (sub_spaces b s) = Some c -> is_space c = false.
Proof.
  destruct s as [|a s]; cbn; [done|]. intros Hs. rewrite (Hs a eq_refl). cbn.
  intros [= <-]. by apply Hs.
Qed.

Lemma last_char_cons p r : r <> "" -> last_char (String p r) = last_char r.
Proof. by destruct r. Qed.

Lemma sub_spaces_keeps_last b s x :
  last_char s = Some x -> is_space x = false -> last_char (sub_spaces b s) = Some x.
Proof.
  revert b. induction s as [|a s IH]; intros b Hlast Hx; [done|].
  destruct s as [|a' s].
  - injection Hlast as ->. cbn. by rewrite Hx.
  - change (last_char (String a (String a' s))) with (last_char (String a' s)) in Hlast.
    assert (Hne : forall b', sub_spaces b' (String a' s) <> "").
    { intros b' Hnil. specialize (IH b' Hlast Hx). by rewrite Hnil in IH. }
    remember (String a' s) as r eqn:Er.
    cbn [sub_spaces]. destruct (is_space a); [destruct b|].
    + by apply IH.
    + rewrite last_char_cons by apply Hne. by apply IH.
    + rewrite last_char_cons by apply Hne. by apply IH.
Qed.

Lemma sub_spaces_last b s c :
  (forall a, last_char s = Some a -> is_space a = false) ->
  last_char (sub_spaces b s) = Some c -> is_space c = false.
Proof.
  intros Hs Hc. destruct (last_char s) as [x|] eqn:El.
  - rewrite (sub_spaces_keeps_last b s x El (Hs x eq_refl)) in Hc. injection Hc as <-.
    by apply Hs.
  - destruct s as [|a s]; [done|]. exfalso. clear -El.
    revert a El. induction s as [|a' s IH]; intros a El; [done|]. by apply (IH a').
Qed.

Lemma lower_first s : first_char (lower s) = lower_char <$> first_char s.
Proof. by destruct s. Qed.

Lemma lower_last s : last_char (lower s) = lower_char <$> last_char s.
Proof.
  induction s as [|a s IH]; [done|]. cbn. destruct s as [|a' s]; [done|]. exact IH.
Qed.

Lemma normalize_name_stripped v : stripped (normalize_name v).
Proof.
  unfold normalize_name. destruct (strip_stripped v) as [Hf Hl].
  split; intros c; [rewrite lower_first|rewrite lower_last];
    intros Hc; apply fmap_Some in Hc as (a & Ha & ->); rewrite is_space_lower.
  - by eapply sub_spaces_first.
  - by eapply sub_spaces_last.
Qed.

Lemma lstrip_lower s : lstrip (lower s) = lower (lstrip s).
Proof.
  induction s as [|c s IH]; cbn; [done|]. rewrite is_space_lower. by destruct (is_space c).
Qed.

Lemma rev_app_lower s t : String.rev_app (lower s) (lower t) = lower (String.rev_app s t).
Proof.
  revert t. induction s as [|c s IH]; intros t; cbn; [done|].
  change (String (lower_char c) (lower t)) with (lower (String c t)). apply IH.
Qed.

Lemma rev_lower s : String.rev (lower s) = lower (String.rev s).
Proof. unfold String.rev. change "" with (lower "") at 1. apply rev_app_lower. Qed.

Lemma strip_lower s : strip (lower s) = lower (strip s).
Proof. unfold strip, rstrip. by rewrite rev_lower, lstrip_lower, rev_lower, lstrip_lower. Qed.

(** A normalized name is its own normal form, so a canonical name that
    [upsert_entities] stored is the key it is found by; white space at the
    ends is dropped, runs of white space inside become one blank, and
    capitals become small letters. *)
Theorem normalize_name_idempotent :
  (forall v, normalize_name (normalize_name v) = normalize_name v) /\
  (forall v, stripped (normalize_name v)) /\
  (forall v, normalize_name (lower v) = normalize_name v) /\
  normalize_name ("  Open   AI" +:+ newline) = "open ai".
Proof.
  split_and!.
  - intros v. pose proof (normalize_name_stripped v) as Hs.
    unfold normalize_name at 1. rewrite (stripped_strip _ Hs).
    unfold normalize_name. by rewrite sub_spaces_lower, sub_spaces_idem, lower_idem.
  - apply normalize_name_stripped.
  - intros v. unfold normalize_name.
    by rewrite strip_lower, sub_spaces_lower, lower_idem.
  - vm_compute. reflexivity.
Qed.
